(** * py-caskdb: the record codec ([format.py]) and the log-structured
      store ([disk_store.py]), as a shallow embedding.

    Python values are modelled as follows.
    - [int] is [Z]; [len] returns a [Z].
    - [bytes] is [list byte].
    - [str] is the list of its code points ([N]); a Python [str] only holds
      code points up to 0x10FFFF ([wf_str]).
    - [dict[str, int]] is a [gmap str Z].
    - a raised exception is [Raise e]; a method that mutates [self] is a
      function from the state to an outcome and the state it leaves behind
      (the state survives a raise, as the object does in Python). *)

From Stdlib Require Import ZArith NArith Lia.
From Stdlib.Strings Require Import Byte Ascii String.
From stdpp Require Import base option list gmap.

Local Open Scope Z_scope.

(** ** Outcomes *)

(** The exceptions the two modules can raise (all come from the standard
    library; the program defines no exception class of its own). *)
Inductive exn : Type :=
  | StructError          (* struct.error *)
  | UnicodeEncodeError
  | UnicodeDecodeError
  | ValueError           (* I/O operation on closed file *)
  | OSError.             (* seek to a negative offset *)

Definition exn_name (e : exn) : string :=
  match e with
  | StructError => "struct.error"
  | UnicodeEncodeError => "UnicodeEncodeError"
  | UnicodeDecodeError => "UnicodeDecodeError"
  | ValueError => "ValueError"
  | OSError => "OSError"
  end.

Inductive result (A : Type) : Type :=
  | Ok (a : A)
  | Raise (e : exn).
Arguments Ok {A} a.
Arguments Raise {A} e.

#[export] Instance result_ret : MRet result := fun A a => Ok a.
#[export] Instance result_bind : MBind result := fun A B f r =>
  match r with
  | Ok a => f a
  | Raise e => Raise e
  end.
#[export] Instance result_fmap : FMap result := fun A B f r =>
  match r with
  | Ok a => Ok (f a)
  | Raise e => Raise e
  end.

(** ** Bytes and text *)

Abbreviation bytes := (list byte).
Abbreviation str := (list N).

Definition len {A} (l : list A) : Z := Z.of_nat (length l).

(** [data[:n]] and [data[n:]] for a non-negative [n]. *)
Definition slice_to {A} (n : Z) (l : list A) : list A := take (Z.to_nat n) l.
Definition slice_from {A} (n : Z) (l : list A) : list A := drop (Z.to_nat n) l.

Definition byte_of_N (n : N) : byte :=
  default x00 (Byte.of_N (n mod 256)%N).

(** A [str] literal of ASCII characters, for readable examples. *)
Fixpoint text (s : string) : str :=
  match s with
  | EmptyString => []
  | String c s' => N_of_ascii c :: text s'
  end.

Definition wf_str (s : str) : Prop := Forall (fun c => (c < 0x110000)%N) s.
Definition is_ascii (s : str) : Prop := Forall (fun c => (c < 0x80)%N) s.

(** *** [str.encode()]: UTF-8, strict *)

Definition utf8_encode_cp (c : N) : result bytes :=
  (if c <? 0x80 then Ok [byte_of_N c]
   else if c <? 0x800 then
     Ok [byte_of_N (0xC0 + c / 64); byte_of_N (0x80 + c mod 64)]
   else if c <? 0x10000 then
     if (0xD800 <=? c) && (c <=? 0xDFFF) then Raise UnicodeEncodeError
     else Ok [byte_of_N (0xE0 + c / 4096);
              byte_of_N (0x80 + (c / 64) mod 64);
              byte_of_N (0x80 + c mod 64)]
   else if c <? 0x110000 then
     Ok [byte_of_N (0xF0 + c / 262144);
         byte_of_N (0x80 + (c / 4096) mod 64);
         byte_of_N (0x80 + (c / 64) mod 64);
         byte_of_N (0x80 + c mod 64)]
   else Raise UnicodeEncodeError)%N.

Fixpoint str_encode (s : str) : result bytes :=
  match s with
  | [] => Ok []
  | c :: s' =>
      b ← utf8_encode_cp c;
      bs ← str_encode s';
      Ok (b ++ bs)
  end.

(** *** [bytes.decode()]: UTF-8, strict *)

Definition is_cont (b : byte) : bool :=
  ((0x80 <=? Byte.to_N b) && (Byte.to_N b <? 0xC0))%N.

Definition cont_bits (b : byte) : N := (Byte.to_N b mod 64)%N.

Fixpoint bytes_decode (bs : bytes) : result str :=
  match bs with
  | [] => Ok []
  | b0 :: r0 =>
      let n0 := Byte.to_N b0 in
      (if n0 <? 0x80 then cons n0 <$> bytes_decode r0
       else if n0 <? 0xC2 then Raise UnicodeDecodeError
       else if n0 <? 0xE0 then
         match r0 with
         | b1 :: r1 =>
             if is_cont b1
             then cons ((n0 - 0xC0) * 64 + cont_bits b1) <$> bytes_decode r1
             else Raise UnicodeDecodeError
         | _ => Raise UnicodeDecodeError
         end
       else if n0 <? 0xF0 then
         match r0 with
         | b1 :: b2 :: r2 =>
             let n1 := Byte.to_N b1 in
             if is_cont b1 && is_cont b2
                && negb ((n0 =? 0xE0) && (n1 <? 0xA0))
                && negb ((n0 =? 0xED) && (0xA0 <=? n1))
             then cons ((n0 - 0xE0) * 4096 + cont_bits b1 * 64 + cont_bits b2)
                    <$> bytes_decode r2
             else Raise UnicodeDecodeError
         | _ => Raise UnicodeDecodeError
         end
       else if n0 <? 0xF5 then
         match r0 with
         | b1 :: b2 :: b3 :: r3 =>
             let n1 := Byte.to_N b1 in
             if is_cont b1 && is_cont b2 && is_cont b3
                && negb ((n0 =? 0xF0) && (n1 <? 0x90))
                && negb ((n0 =? 0xF4) && (0x90 <=? n1))
             then cons ((n0 - 0xF0) * 262144 + cont_bits b1 * 4096
                        + cont_bits b2 * 64 + cont_bits b3)
                    <$> bytes_decode r3
             else Raise UnicodeDecodeError
         | _ => Raise UnicodeDecodeError
         end
       else Raise UnicodeDecodeError)%N
  end.

(** ** The [struct] formats the codec uses *)

(** ["III"] has no byte-order prefix, so [struct] uses the byte order of the
    host; it is a parameter of the model. In native mode an unsigned int
    takes 4 bytes, aligned to 4, so the three fields are packed without
    padding. *)
Inductive byteorder : Type := LittleEndian | BigEndian.

Definition le_bytes (x : Z) : bytes :=
  [byte_of_N (Z.to_N x);
   byte_of_N (Z.to_N (x / 256));
   byte_of_N (Z.to_N (x / 65536));
   byte_of_N (Z.to_N (x / 16777216))].

Definition le_value (bs : bytes) : Z :=
  foldr (fun b acc => Z.of_N (Byte.to_N b) + 256 * acc) 0 bs.

Definition in_order (native : byteorder) (bs : bytes) : bytes :=
  match native with
  | LittleEndian => bs
  | BigEndian => reverse bs
  end.

(** One ["I"] field: [struct.error] when the argument is out of range. *)
Definition pack_I (native : byteorder) (x : Z) : result bytes :=
  if (0 <=? x) && (x <? 4294967296)
  then Ok (in_order native (le_bytes x))
  else Raise StructError.

Definition unpack_I (native : byteorder) (bs : bytes) : Z :=
  le_value (in_order native bs).

(** [struct.pack("III", a, b, c)] *)
Definition struct_pack_III (native : byteorder) (a b c : Z) : result bytes :=
  ba ← pack_I native a;
  bb ← pack_I native b;
  bc ← pack_I native c;
  Ok (ba ++ bb ++ bc).

(** [struct.unpack("III", data)]: the buffer must hold exactly 12 bytes. *)
Definition struct_unpack_III (native : byteorder) (data : bytes)
  : result (Z * Z * Z) :=
  if len data =? 12
  then Ok (unpack_I native (take 4 data),
           unpack_I native (take 4 (drop 4 data)),
           unpack_I native (take 4 (drop 8 data)))
  else Raise StructError.

(** One ["<n>s"] field when packing: the argument is cut, or padded with
    null bytes, to exactly [n] bytes. *)
Definition pack_s (n : Z) (b : bytes) : bytes :=
  take (Z.to_nat n) b ++ replicate (Z.to_nat n - length b) x00.

(** [struct.pack("{}s{}s".format(n, m), a, b)] *)
Definition struct_pack_ss (n m : Z) (a b : bytes) : bytes :=
  pack_s n a ++ pack_s m b.

(** [struct.unpack("{}s{}s".format(n, m), data)]: the buffer must hold
    exactly [n + m] bytes. *)
Definition struct_unpack_ss (n m : Z) (data : bytes) : result (bytes * bytes) :=
  if len data =? n + m
  then Ok (take (Z.to_nat n) data, take (Z.to_nat m) (drop (Z.to_nat n) data))
  else Raise StructError.

(** ** [constants.py] *)

(** Modelled from the spec: [constants.py], which defines [HEADER_SIZE], is
    not among the sources. The spec fixes the header as "the fixed 12-byte
    prefix (timestamp, key_size, value_size)", which is also the size of the
    ["III"] format. *)
Definition HEADER_SIZE : Z := 12.

(** ** [format.py] *)

Section Format.
Variable native : byteorder.

Definition encode_header (timestamp key_size value_size : Z) : result bytes :=
  struct_pack_III native timestamp key_size value_size.

Definition encode_kv (timestamp : Z) (key value : str) : result (Z * bytes) :=
  key_b ← str_encode key;
  value_b ← str_encode value;
  let record_in_bin := struct_pack_ss (len key) (len value) key_b value_b in
  header ← encode_header timestamp (len key) (len value);
  let record_with_header := header ++ record_in_bin in
  Ok (len record_with_header, record_with_header).

Definition decode_header (data : bytes) : result (Z * Z * Z) :=
  struct_unpack_III native data.

Definition decode_kv (data : bytes) : result (Z * str * str) :=
  '(timestamp, key_size, value_size) ← decode_header (slice_to HEADER_SIZE data);
  '(key, value) ← struct_unpack_ss key_size value_size (slice_from HEADER_SIZE data);
  k ← bytes_decode key;
  v ← bytes_decode value;
  Ok (timestamp, k, v).
End Format.

(** ** State and exceptions *)

(** A computation on a mutable object of type [S]: the outcome and the
    state the object is left in. A raise keeps the changes made so far. *)
Definition M (S A : Type) : Type := S -> result A * S.

#[export] Instance M_ret {S} : MRet (M S) := fun A a s => (Ok a, s).
#[export] Instance M_bind {S} : MBind (M S) := fun A B f m s =>
  match m s with
  | (Ok a, s') => f a s'
  | (Raise e, s') => (Raise e, s')
  end.

(** A pure call inside a method: its exception propagates. *)
Definition lift {S A} (r : result A) : M S A := fun s => (r, s).

(** ** The file object ([open(file_name, "rb+")]) *)

Record file_obj : Type := mk_file {
  f_data : bytes;     (* the contents of the file *)
  f_pos : Z;          (* the stream position *)
  f_closed : bool
}.

Inductive whence : Type := SEEK_SET | SEEK_END.

Definition f_seek (offset : Z) (w : whence) : M file_obj Z := fun f =>
  if f_closed f then (Raise ValueError, f)
  else
    let target := match w with
                  | SEEK_SET => offset
                  | SEEK_END => len (f_data f) + offset
                  end in
    if target <? 0 then (Raise OSError, f)
    else (Ok target, mk_file (f_data f) target false).

Definition f_tell : M file_obj Z := fun f =>
  if f_closed f then (Raise ValueError, f) else (Ok (f_pos f), f).

(** [read(n)]: up to [n] bytes from the position, fewer only at the end of
    the file; a negative [n] reads to the end. *)
Definition f_read (n : Z) : M file_obj bytes := fun f =>
  if f_closed f then (Raise ValueError, f)
  else
    let rest := slice_from (f_pos f) (f_data f) in
    let got := if n <? 0 then rest else slice_to n rest in
    (Ok got, mk_file (f_data f) (f_pos f + len got) false).

(** [write(b)]: at the position, over what is there and past the end; a
    position beyond the end leaves a gap of null bytes. *)
Definition f_write (b : bytes) : M file_obj Z := fun f =>
  if f_closed f then (Raise ValueError, f)
  else
    match b with
    | [] => (Ok 0, f)
    | _ =>
        let p := Z.to_nat (f_pos f) in
        let d := f_data f in
        (Ok (len b),
         mk_file (take p d ++ replicate (p - length d) x00 ++ b
                    ++ drop (p + length b) d)
                 (f_pos f + len b) false)
    end.

(** [close()]: closing a closed file is allowed and does nothing. *)
Definition f_close : M file_obj unit := fun f =>
  (Ok tt, mk_file (f_data f) (f_pos f) true).

(** [open(file_name, "a").close()] then [open(file_name, "rb+")]: the file
    is created empty when the path does not exist ([None]); the new file
    object starts at position 0. *)
Definition py_open (on_disk : option bytes) : file_obj :=
  mk_file (default [] on_disk) 0 false.

(** ** [disk_store.py] *)

Module DiskStorage.

Record t : Type := mk {
  file_store : file_obj;
  key_dir : gmap str Z
}.

(** [self.file_store.<method>(...)] *)
Definition on_file {A} (m : M file_obj A) : M t A := fun self =>
  let (r, f) := m (file_store self) in (r, mk f (key_dir self)).

(** [self.key_dir[k] = v] *)
Definition key_dir_setitem (k : str) (v : Z) : M t unit := fun self =>
  (Ok tt, mk (file_store self) (<[k := v]> (key_dir self))).

Section WithByteOrder.
Variable native : byteorder.

(** The body of the [while] loop of [__init_db]; it returns the next
    value of [current_file_pointer]. *)
Definition init_db_body (current_file_pointer : Z) : M t Z :=
  header_b ← on_file (f_read HEADER_SIZE);
  '(timestamp, k_sz, v_sz) ← lift (decode_header native header_b);
  kv_data_b ← on_file (f_read (k_sz + v_sz));
  '(t, k, v) ← lift (decode_kv native (header_b ++ kv_data_b));
  _ ← key_dir_setitem k current_file_pointer;
  on_file (f_seek (current_file_pointer + HEADER_SIZE + k_sz + v_sz) SEEK_SET).

(** The [while] loop, with a bound on the number of iterations; [None]
    is a run that needs more than [fuel] iterations
    ([init_db_loop_fuel] shows that [__init_db] never gets there). *)
Fixpoint init_db_loop (fuel : nat) (total_file_size current_file_pointer : Z)
    (self : t) : option (result unit * t) :=
  if current_file_pointer <? total_file_size then
    match fuel with
    | O => None
    | S fuel' =>
        match init_db_body current_file_pointer self with
        | (Ok next, self') => init_db_loop fuel' total_file_size next self'
        | (Raise e, self') => Some (Raise e, self')
        end
    end
  else Some (Ok tt, self).

Definition __init_db (self : t) : option (result unit * t) :=
  match (_ ← on_file (f_seek 0 SEEK_END); on_file f_tell) self with
  | (Raise e, self') => Some (Raise e, self')
  | (Ok total_file_size, self') =>
      if total_file_size <? 10 then Some (Ok tt, self')
      else
        let current_file_pointer := 0 in
        match on_file (f_seek current_file_pointer SEEK_SET) self' with
        | (Raise e, self'') => Some (Raise e, self'')
        | (Ok _, self'') =>
            init_db_loop (Z.to_nat total_file_size) total_file_size
              current_file_pointer self''
        end
  end.

(** The constructor, on the contents the path has on disk ([None]: no
    such file). An exception in the constructor leaves the caller
    without an object. *)
Definition __init__ (on_disk : option bytes) : option (result t) :=
  match __init_db (mk (py_open on_disk) ∅) with
  | None => None
  | Some (Ok _, self) => Some (Ok self)
  | Some (Raise e, _) => Some (Raise e)
  end.

(** [now] is the value of [int(time.time())] at the call. *)
Definition set (now : Z) (key value : str) : M t unit :=
  _ ← on_file (f_seek 0 SEEK_END);
  total_file_size_before_key_set ← on_file f_tell;
  encoded_data ← lift (encode_kv native now key value);
  _ ← on_file (f_write encoded_data.2);
  key_dir_setitem key total_file_size_before_key_set.

Definition get (key : str) : M t str := fun self =>
  match key_dir self !! key with
  | None => (Ok [], self)
  | Some offset_to_jump_to =>
      (_ ← on_file (f_seek offset_to_jump_to SEEK_SET);
       header_b ← on_file (f_read HEADER_SIZE);
       '(timestamp, key_size, value_size) ← lift (decode_header native header_b);
       _ ← on_file (f_seek (offset_to_jump_to + HEADER_SIZE) SEEK_SET);
       kv_data_b ← on_file (f_read (key_size + value_size));
       '(timestamp, k, v) ← lift (decode_kv native (header_b ++ kv_data_b));
       mret v) self
  end.

Definition close : M t unit := on_file f_close.

Definition __setitem__ (now : Z) (key value : str) : M t unit :=
  set now key value.

Definition __getitem__ (item : str) : M t str := get item.

(** Closing and constructing again on the same path: the new object
    sees the bytes the old one left in the file. *)
Definition reopen (self : t) : option (result t) :=
  __init__ (Some (f_data (file_store self))).
End WithByteOrder.

End DiskStorage.

Import DiskStorage.

(** ** Notions used in the statements *)

(** *** One record read off the log

    What both the scan and [get] do at a position: read the header, read
    as many bytes as it declares, decode the whole. [rest] is the file from
    the position on; the last component is the size of the record. *)
Definition parse_record (native : byteorder) (rest : bytes)
  : result (Z * str * str * Z) :=
  let header_b := slice_to HEADER_SIZE rest in
  '(_, k_sz, v_sz) ← decode_header native header_b;
  let kv_data_b := slice_to (k_sz + v_sz) (slice_from HEADER_SIZE rest) in
  '(t, k, v) ← decode_kv native (header_b ++ kv_data_b);
  Ok (t, k, v, HEADER_SIZE + k_sz + v_sz).

(** A log that is cut short: following the records from the start of
    [rest], some position is reached where bytes remain, but fewer than a
    header, or fewer than the body the header declares. *)
Inductive truncated (native : byteorder) : bytes -> Prop :=
  | trunc_header rest :
      0 < len rest < HEADER_SIZE ->
      truncated native rest
  | trunc_body rest t k v :
      decode_header native (slice_to HEADER_SIZE rest) = Ok (t, k, v) ->
      len rest < HEADER_SIZE + k + v ->
      truncated native rest
  | trunc_later rest t k v :
      decode_header native (slice_to HEADER_SIZE rest) = Ok (t, k, v) ->
      HEADER_SIZE + k + v <= len rest ->
      truncated native (slice_from (HEADER_SIZE + k + v) rest) ->
      truncated native rest.

(** *** Stores whose index can be trusted

    Every entry of the index is the offset of a record that parses and
    carries the entry's key. *)
Definition index_ok (native : byteorder) (self : DiskStorage.t) : Prop :=
  forall (k : str) (off : Z),
    key_dir self !! k = Some off ->
    0 <= off
    /\ exists t v sz,
         parse_record native (slice_from off (f_data (file_store self)))
         = Ok (t, k, v, sz).

(** *** Sequences of [set] calls

    A call is the reading of the clock, the key and the value. *)
Definition run_sets (native : byteorder) (calls : list (Z * str * str))
    (self : DiskStorage.t) : DiskStorage.t :=
  foldl (fun s '(now, key, value) => (set native now key value s).2) self calls.

(** Calls on ASCII text with sizes and clock readings that fit the header. *)
Definition ascii_call (call : Z * str * str) : Prop :=
  let '(now, key, value) := call in
  is_ascii key /\ is_ascii value /\ 0 <= now < 4294967296
  /\ len key < 4294967296 /\ len value < 4294967296.

(** The bytes the calls append, and the index they build when the first
    record goes to offset [o]. *)
Fixpoint log_of_calls (native : byteorder) (calls : list (Z * str * str)) : bytes :=
  match calls with
  | [] => []
  | (now, key, value) :: calls' =>
      match encode_kv native now key value with
      | Ok (_, rec) => rec
      | Raise _ => []
      end ++ log_of_calls native calls'
  end.

Fixpoint index_of_calls (calls : list (Z * str * str)) (o : Z)
    (kd : gmap str Z) : gmap str Z :=
  match calls with
  | [] => kd
  | (now, key, value) :: calls' =>
      index_of_calls calls' (o + (12 + len key + len value)) (<[key := o]> kd)
  end.

(** The store [__init__] returns on a path that does not exist yet. *)
Definition fresh : DiskStorage.t := mk (mk_file [] 0 false) ∅.

(** "é" and "éa": text whose UTF-8 encoding is longer than its character
    count. *)
Definition e_acute : str := [233%N].
Definition e_acute_a : str := [233%N; 97%N].

(** A store that holds the key "k" with the empty string as its value. *)
Definition store_with_empty_value : DiskStorage.t :=
  (set LittleEndian 1700000000 (text "k") [] fresh).2.

(** A store with one key, closed. *)
Definition closed_store : DiskStorage.t :=
  (close (set LittleEndian 1700000000 (text "othello") (text "shakespeare") fresh).2).2.

(** A log of two records: "othello" then "hamlet", both by "shakespeare". *)
Definition two_records : bytes := Eval vm_compute in
  f_data (file_store
    (set LittleEndian 1700000001 (text "hamlet") (text "shakespeare")
       (set LittleEndian 1700000000 (text "othello") (text "shakespeare")
          fresh).2).2).

(** The same log with the second record cut in the middle of its body. *)
Definition cut_log : bytes := Eval vm_compute in take 45 two_records.

(** Ten null bytes: shorter than a header. *)
Definition ten_bytes : bytes := replicate 10 x00.

(** A record whose one-byte key is not UTF-8 (0xFF), then three stray
    bytes. *)
Definition bad_text_cut_log : bytes :=
  [x00; x00; x00; x00; x01; x00; x00; x00; x00; x00; x00; x00; xff;
   x01; x02; x03].

(** *** Further notions: what the codec accepts, logs, and runs of calls *)

(** An unsigned 32-bit value, what one ["I"] field holds. *)
Definition u32 (x : Z) : Prop := 0 <= x < 4294967296.

(** Text [str.encode()] accepts: code points of the Unicode range that are
    not surrogates. *)
Definition encodable (s : str) : Prop :=
  Forall (fun c => (c < 0x110000)%N /\ ~ (0xD800 <= c <= 0xDFFF)%N) s.

(** A log the scan can walk to its end: empty, or a first record, the
    [sz] bytes that [decode_kv] accepts, followed by such a log. *)
Inductive well_formed_log (native : byteorder) : bytes -> Prop :=
  | wf_log_end : well_formed_log native []
  | wf_log_record rest t k v sz :
      0 <= sz <= len rest ->
      decode_kv native (slice_to sz rest) = Ok (t, k, v) ->
      well_formed_log native (slice_from sz rest) ->
      well_formed_log native rest.

(** Every entry of the index is the offset of a whole record frame: a
    header that decodes, followed in the file by at least the bytes it
    declares. *)
Definition framed (native : byteorder) (self : DiskStorage.t) : Prop :=
  forall (k : str) (off : Z),
    key_dir self !! k = Some off ->
    0 <= off
    /\ exists t ks vs,
         decode_header native
           (slice_to HEADER_SIZE (slice_from off (f_data (file_store self))))
         = Ok (t, ks, vs)
         /\ off + HEADER_SIZE + ks + vs <= len (f_data (file_store self)).

(** Calls of [set] and [get] in any order; the answers are dropped, the
    store is threaded through. *)
Inductive op : Type :=
  | OpSet (now : Z) (key value : str)
  | OpGet (key : str).

Definition run_op (native : byteorder) (self : DiskStorage.t) (o : op)
    : DiskStorage.t :=
  match o with
  | OpSet now key value => (set native now key value self).2
  | OpGet key => (get native key self).2
  end.

Definition run_ops (native : byteorder) (ops : list op) (self : DiskStorage.t)
    : DiskStorage.t :=
  foldl (run_op native) self ops.

(** The value of the last call, if any, that sets [key]. *)
Fixpoint last_set (calls : list (Z * str * str)) (key : str) : option str :=
  match calls with
  | [] => None
  | (now, k, v) :: calls' =>
      match last_set calls' key with
      | Some v' => Some v'
      | None => if decide (k = key) then Some v else None
      end
  end.

(** The store the constructor builds on the log of two records. *)
Definition opened_two_records : DiskStorage.t :=
  mk (mk_file two_records 59 false)
     (<[text "hamlet" := 30]> (<[text "othello" := 0]> ∅)).

(** A key with a lone surrogate: text [str.encode()] refuses. *)
Definition surrogate_key : str := [0xD800%N].

(** Three calls of [set] on ASCII text, the last one on the first key
    again. *)
Definition three_calls : list (Z * str * str) :=
  [(1700000000, text "othello", text "shakespeare");
   (1700000001, text "hamlet", text "shakespeare");
   (1700000002, text "othello", text "verdi")].

(** The record [encode_kv] makes of the key "éa" and the value "v". *)
Definition cut_record : bytes := Eval vm_compute in
  match encode_kv LittleEndian 0 e_acute_a (text "v") with
  | Ok (_, data) => data
  | Raise _ => []
  end.

(** ** Proof tactics *)

Ltac unfold_M :=
  unfold mbind, M_bind, mret, M_ret, on_file, lift, key_dir_setitem,
    f_read, f_seek, f_tell, f_write, f_close; simpl.

(** Arithmetic on [N] with division and remainder by constants. *)
Ltac n_arith := zify; Z.to_euclidean_division_equations; lia.

(** Case analysis on every comparison of the goal. *)
Ltac split_cmp :=
  repeat match goal with
         | |- context [N.ltb ?a ?b] => destruct (N.ltb_spec a b)
         | |- context [N.leb ?a ?b] => destruct (N.leb_spec a b)
         | |- context [N.eqb ?a ?b] => destruct (N.eqb_spec a b)
         end.

(** Replaces the comparisons of the goal that arithmetic settles. *)
Ltac decide_cmp :=
  repeat (match goal with
          | |- context [N.ltb ?a ?b] =>
              first [ replace (N.ltb a b) with true
                        by (symmetry; apply N.ltb_lt; n_arith)
                    | replace (N.ltb a b) with false
                        by (symmetry; apply N.ltb_ge; n_arith) ]
          | |- context [N.leb ?a ?b] =>
              first [ replace (N.leb a b) with true
                        by (symmetry; apply N.leb_le; n_arith)
                    | replace (N.leb a b) with false
                        by (symmetry; apply N.leb_gt; n_arith) ]
          | |- context [N.eqb ?a ?b] =>
              first [ replace (N.eqb a b) with true
                        by (symmetry; apply N.eqb_eq; n_arith)
                    | replace (N.eqb a b) with false
                        by (symmetry; apply N.eqb_neq; n_arith) ]
          end; cbn [andb negb]; cbv iota).

Ltac ascii_text :=
  unfold is_ascii; cbn [text];
  repeat (constructor; [reflexivity|]); constructor.

(** * Properties *)

(** ** Bytes and the ["I"] format *)

Lemma byte_of_N_to_N (n : N) : Byte.to_N (byte_of_N n) = (n mod 256)%N.
Proof.
  unfold byte_of_N.
  destruct (Byte.of_N (n mod 256)) as [b|] eqn:E; simpl.
  - now apply Byte.to_of_N.
  - apply Byte.of_N_None_iff in E.
    pose proof (N.mod_lt n 256). lia.
Qed.

Lemma byte_of_N_small (n : N) : (n < 256)%N -> Byte.to_N (byte_of_N n) = n.
Proof. intros H. rewrite byte_of_N_to_N. now apply N.mod_small. Qed.

Lemma byte_value_of_Z (x : Z) :
  0 <= x -> Z.of_N (Byte.to_N (byte_of_N (Z.to_N x))) = x mod 256.
Proof.
  intros H. rewrite byte_of_N_to_N, N2Z.inj_mod, Z2N.id by lia. reflexivity.
Qed.

Lemma le_value_le_bytes (x : Z) :
  0 <= x < 4294967296 -> le_value (le_bytes x) = x.
Proof.
  intros H. unfold le_value, le_bytes; simpl.
  rewrite !byte_value_of_Z by (try apply Z.div_pos; lia).
  Z.div_mod_to_equations. lia.
Qed.

Lemma le_value_nonneg (bs : bytes) : 0 <= le_value bs.
Proof.
  induction bs as [|b bs IH]; simpl; [lia|].
  unfold le_value in *; simpl. lia.
Qed.

Lemma in_order_involutive native bs : in_order native (in_order native bs) = bs.
Proof. destruct native; simpl; [reflexivity | apply reverse_involutive]. Qed.

Lemma length_in_order native bs : length (in_order native bs) = length bs.
Proof. destruct native; simpl; [reflexivity | apply length_reverse]. Qed.

Lemma unpack_I_nonneg native bs : 0 <= unpack_I native bs.
Proof. apply le_value_nonneg. Qed.

Lemma pack_I_ok native (x : Z) :
  0 <= x < 4294967296 ->
  exists bs, pack_I native x = Ok bs /\ length bs = 4%nat /\ unpack_I native bs = x.
Proof.
  intros H. unfold pack_I.
  replace ((0 <=? x) && (x <? 4294967296)) with true
    by (symmetry; apply andb_true_iff; split; [apply Z.leb_le | apply Z.ltb_lt]; lia).
  eexists; split; [reflexivity|]. split.
  - now rewrite length_in_order.
  - unfold unpack_I. rewrite in_order_involutive. now apply le_value_le_bytes.
Qed.

Lemma pack_I_inv native x bs :
  pack_I native x = Ok bs -> 0 <= x < 4294967296 /\ length bs = 4%nat.
Proof.
  unfold pack_I. destruct ((0 <=? x) && (x <? 4294967296)) eqn:E; [|discriminate].
  intros [= <-]. apply andb_true_iff in E as [?%Z.leb_le ?%Z.ltb_lt].
  split; [lia|]. now rewrite length_in_order.
Qed.

Lemma struct_pack_III_ok native (a b c : Z) :
  0 <= a < 4294967296 -> 0 <= b < 4294967296 -> 0 <= c < 4294967296 ->
  exists hd, struct_pack_III native a b c = Ok hd /\ length hd = 12%nat
             /\ struct_unpack_III native hd = Ok (a, b, c).
Proof.
  intros Ha Hb Hc.
  destruct (pack_I_ok native a Ha) as (ba & Ea & La & Ua).
  destruct (pack_I_ok native b Hb) as (bb & Eb & Lb & Ub).
  destruct (pack_I_ok native c Hc) as (bc & Ec & Lc & Uc).
  exists (ba ++ bb ++ bc). unfold struct_pack_III. rewrite Ea, Eb, Ec. simpl.
  split; [reflexivity|]. split; [rewrite !length_app; lia|].
  subst a b c.
  do 5 (try destruct ba as [|? ba]; try discriminate La).
  do 5 (try destruct bb as [|? bb]; try discriminate Lb).
  do 5 (try destruct bc as [|? bc]; try discriminate Lc).
  reflexivity.
Qed.

Lemma struct_pack_III_inv native a b c hd :
  struct_pack_III native a b c = Ok hd ->
  0 <= a < 4294967296 /\ 0 <= b < 4294967296 /\ 0 <= c < 4294967296
  /\ length hd = 12%nat.
Proof.
  unfold struct_pack_III.
  destruct (pack_I native a) as [ba|] eqn:Ea; [|discriminate].
  destruct (pack_I native b) as [bb|] eqn:Eb; [|discriminate].
  destruct (pack_I native c) as [bc|] eqn:Ec; [|discriminate].
  simpl. intros [= <-].
  apply pack_I_inv in Ea as [? ?], Eb as [? ?], Ec as [? ?].
  rewrite !length_app. repeat split; lia.
Qed.

Lemma struct_unpack_III_inv native data t k v :
  struct_unpack_III native data = Ok (t, k, v) ->
  length data = 12%nat /\ 0 <= t /\ 0 <= k /\ 0 <= v.
Proof.
  unfold struct_unpack_III, len.
  destruct (Z.of_nat (length data) =? 12) eqn:E; [|discriminate].
  intros [= <- <- <-]. apply Z.eqb_eq in E.
  repeat split; try apply unpack_I_nonneg. lia.
Qed.

(** ** Text *)

Example encode_e_acute : str_encode [233%N] = Ok [xc3; xa9].
Proof. reflexivity. Qed.
Example decode_e_acute : bytes_decode [xc3; xa9] = Ok [233%N].
Proof. reflexivity. Qed.
Example decode_cut : bytes_decode [xc3] = Raise UnicodeDecodeError.
Proof. reflexivity. Qed.
Example encode_euro : str_encode [0x20AC%N] = Ok [xe2; x82; xac].
Proof. reflexivity. Qed.
Example decode_euro : bytes_decode [xe2; x82; xac] = Ok [0x20AC%N].
Proof. reflexivity. Qed.
Example encode_emoji : str_encode [0x1F600%N] = Ok [xf0; x9f; x98; x80].
Proof. reflexivity. Qed.
Example decode_emoji : bytes_decode [xf0; x9f; x98; x80] = Ok [0x1F600%N].
Proof. reflexivity. Qed.

Lemma utf8_encode_cp_length c b :
  utf8_encode_cp c = Ok b -> (1 <= length b)%nat.
Proof.
  unfold utf8_encode_cp.
  repeat match goal with
         | |- context [if ?x then _ else _] => destruct x
         end; intros [= <-]; simpl; lia.
Qed.

Lemma str_encode_length s b :
  str_encode s = Ok b -> (length s <= length b)%nat.
Proof.
  revert b. induction s as [|c s IH]; simpl; intros b.
  - intros [= <-]. reflexivity.
  - destruct (utf8_encode_cp c) as [bc|] eqn:Ec; [|discriminate].
    destruct (str_encode s) as [bs|] eqn:Es; [|discriminate].
    simpl. intros [= <-]. apply utf8_encode_cp_length in Ec.
    specialize (IH bs eq_refl). rewrite length_app. lia.
Qed.

Lemma str_encode_ascii s :
  is_ascii s -> str_encode s = Ok (byte_of_N <$> s).
Proof.
  induction 1 as [|c s Hc _ IH]; simpl; [reflexivity|].
  unfold utf8_encode_cp. apply N.ltb_lt in Hc. rewrite Hc, IH. reflexivity.
Qed.

Lemma bytes_decode_ascii s :
  is_ascii s -> bytes_decode (byte_of_N <$> s) = Ok s.
Proof.
  induction 1 as [|c s Hc _ IH]; [reflexivity|].
  rewrite fmap_cons. cbn [bytes_decode].
  rewrite byte_of_N_small by lia.
  apply N.ltb_lt in Hc. rewrite Hc, IH. reflexivity.
Qed.

(** One step of the decoder. *)
Lemma bytes_decode_unfold (bs : bytes) :
  bytes_decode bs =
  match bs with
  | [] => Ok []
  | b0 :: r0 =>
      let n0 := Byte.to_N b0 in
      (if n0 <? 0x80 then cons n0 <$> bytes_decode r0
       else if n0 <? 0xC2 then Raise UnicodeDecodeError
       else if n0 <? 0xE0 then
         match r0 with
         | b1 :: r1 =>
             if is_cont b1
             then cons ((n0 - 0xC0) * 64 + cont_bits b1) <$> bytes_decode r1
             else Raise UnicodeDecodeError
         | _ => Raise UnicodeDecodeError
         end
       else if n0 <? 0xF0 then
         match r0 with
         | b1 :: b2 :: r2 =>
             let n1 := Byte.to_N b1 in
             if is_cont b1 && is_cont b2
                && negb ((n0 =? 0xE0) && (n1 <? 0xA0))
                && negb ((n0 =? 0xED) && (0xA0 <=? n1))
             then cons ((n0 - 0xE0) * 4096 + cont_bits b1 * 64 + cont_bits b2)
                    <$> bytes_decode r2
             else Raise UnicodeDecodeError
         | _ => Raise UnicodeDecodeError
         end
       else if n0 <? 0xF5 then
         match r0 with
         | b1 :: b2 :: b3 :: r3 =>
             let n1 := Byte.to_N b1 in
             if is_cont b1 && is_cont b2 && is_cont b3
                && negb ((n0 =? 0xF0) && (n1 <? 0x90))
                && negb ((n0 =? 0xF4) && (0x90 <=? n1))
             then cons ((n0 - 0xF0) * 262144 + cont_bits b1 * 4096
                        + cont_bits b2 * 64 + cont_bits b3)
                    <$> bytes_decode r3
             else Raise UnicodeDecodeError
         | _ => Raise UnicodeDecodeError
         end
       else Raise UnicodeDecodeError)%N
  end.
Proof. destruct bs; reflexivity. Qed.

Lemma cont_mod (x : N) : (x < 64 -> (128 + x) mod 64 = x)%N.
Proof. intros H. n_arith. Qed.

(** Decoding undoes encoding, one code point at a time. *)
Lemma utf8_roundtrip_cp (c : N) (b rest : bytes) :
  utf8_encode_cp c = Ok b ->
  bytes_decode (b ++ rest) = cons c <$> bytes_decode rest.
Proof.
  unfold utf8_encode_cp.
  destruct (N.ltb_spec c 0x80); [|destruct (N.ltb_spec c 0x800);
    [|destruct (N.ltb_spec c 0x10000);
      [destruct (N.leb_spec 0xD800 c); [destruct (N.leb_spec c 0xDFFF)|]|
       destruct (N.ltb_spec c 0x110000)]]];
    cbn [andb]; cbv iota; try discriminate; intros [= <-].
  all: cbn [app]; rewrite bytes_decode_unfold; cbv zeta iota beta;
    unfold is_cont, cont_bits; rewrite !byte_of_N_small by n_arith;
    rewrite ?cont_mod by (apply N.mod_lt; discriminate).
  all: decide_cmp.
  all: try reflexivity.

  all: split_cmp; cbn [andb negb]; cbv iota.
  all: first [ do 2 f_equal; n_arith | exfalso; n_arith ].
Qed.

(** [s.encode().decode() == s] for every [str] that can be encoded. *)
Lemma utf8_roundtrip (s : str) (b : bytes) :
  str_encode s = Ok b -> bytes_decode b = Ok s.
Proof.
  revert b. induction s as [|c s IH]; simpl; intros b.
  - intros [= <-]. reflexivity.
  - destruct (utf8_encode_cp c) as [bc|] eqn:Ec; [|discriminate].
    destruct (str_encode s) as [bs|] eqn:Es; [|discriminate].
    simpl. intros [= <-].
    rewrite (utf8_roundtrip_cp _ _ _ Ec), (IH _ eq_refl). reflexivity.
Qed.

Lemma pack_s_exact (n : nat) (b : bytes) :
  (n <= length b)%nat -> pack_s (Z.of_nat n) b = take n b.
Proof.
  intros H. unfold pack_s. rewrite Nat2Z.id.
  replace (n - length b)%nat with 0%nat by lia.
  simpl. apply app_nil_r.
Qed.

Lemma pack_s_len {A} (s : list A) (b : bytes) :
  (length s <= length b)%nat -> pack_s (len s) b = take (length s) b.
Proof. apply pack_s_exact. Qed.

(** ** The codec *)

(** What [encode_kv] returns on text that can be encoded and sizes that fit
    the header: the header carries the character counts, and each field is
    the encoded text cut to its character count. *)
Lemma encode_kv_ok native (timestamp : Z) (key value : str) (kb vb : bytes) :
  str_encode key = Ok kb -> str_encode value = Ok vb ->
  0 <= timestamp < 4294967296 ->
  len key < 4294967296 -> len value < 4294967296 ->
  exists hd,
    encode_header native timestamp (len key) (len value) = Ok hd
    /\ length hd = 12%nat
    /\ decode_header native hd = Ok (timestamp, len key, len value)
    /\ encode_kv native timestamp key value
       = Ok (12 + len key + len value,
             hd ++ take (length key) kb ++ take (length value) vb).
Proof.
  intros Ek Ev Ht Hk Hv.
  assert (0 <= len key) as Hk0 by (unfold len; lia).
  assert (0 <= len value) as Hv0 by (unfold len; lia).
  destruct (struct_pack_III_ok native timestamp (len key) (len value))
    as (hd & Eh & Lh & Uh); try lia.
  exists hd. unfold encode_kv, encode_header, decode_header.
  rewrite Ek, Ev, Eh. simpl. repeat split; try assumption.
  unfold struct_pack_ss, len.
  rewrite !pack_s_exact by now apply str_encode_length.
  do 2 f_equal. rewrite !length_app, !length_take.
  apply str_encode_length in Ek, Ev. lia.
Qed.

(** Whenever [encode_kv] returns, the length it reports is 12 plus the two
    character counts. *)
Lemma encode_kv_inv native timestamp key value n data :
  encode_kv native timestamp key value = Ok (n, data) ->
  n = 12 + len key + len value /\ len data = n
  /\ 0 <= timestamp < 4294967296.
Proof.
  unfold encode_kv, encode_header.
  destruct (str_encode key) as [kb|] eqn:Ek; [|discriminate].
  destruct (str_encode value) as [vb|] eqn:Ev; [|discriminate].
  simpl.
  destruct (struct_pack_III native timestamp (len key) (len value))
    as [hd|] eqn:Eh; [|discriminate].
  simpl. intros [= <- <-].
  apply struct_pack_III_inv in Eh as (Ht & _ & _ & Lh).
  split; [|split; [reflexivity | exact Ht]].
  unfold struct_pack_ss, len.
  rewrite !pack_s_exact by now apply str_encode_length.
  rewrite !length_app, !length_take.
  apply str_encode_length in Ek, Ev. lia.
Qed.

Lemma decode_kv_record native (hd kb vb : bytes) (t k v : Z) (ks vs : str) :
  decode_header native hd = Ok (t, k, v) ->
  len kb = k -> len vb = v ->
  bytes_decode kb = Ok ks -> bytes_decode vb = Ok vs ->
  decode_kv native (hd ++ kb ++ vb) = Ok (t, ks, vs).
Proof.
  intros Eh Lk Lv Dk Dv.
  pose proof Eh as Hh. apply struct_unpack_III_inv in Hh as (Lh & _).
  unfold decode_kv, slice_to, slice_from, HEADER_SIZE.
  change (Z.to_nat 12) with 12%nat.
  rewrite take_app_length', drop_app_length' by done.
  rewrite Eh. simpl.
  unfold struct_unpack_ss, len in *.
  rewrite length_app, Nat2Z.inj_add, Lk, Lv, Z.eqb_refl. simpl.
  rewrite <- Lk, <- Lv, !Nat2Z.id.
  rewrite take_app_length, drop_app_length, take_ge by lia.
  rewrite Dk, Dv. reflexivity.
Qed.

(** Where the character count is the byte count, the codec round-trips. *)
Lemma codec_roundtrip_ascii native (timestamp : Z) (key value : str) :
  is_ascii key -> is_ascii value ->
  0 <= timestamp < 4294967296 ->
  len key < 4294967296 -> len value < 4294967296 ->
  exists n data,
    encode_kv native timestamp key value = Ok (n, data)
    /\ decode_kv native data = Ok (timestamp, key, value).
Proof.
  intros Ak Av Ht Hk Hv.
  destruct (encode_kv_ok native timestamp key value _ _
              (str_encode_ascii _ Ak) (str_encode_ascii _ Av) Ht Hk Hv)
    as (hd & _ & Lh & Dh & E).
  eexists _, _. split; [exact E|].
  rewrite !take_ge by (rewrite length_fmap; lia).
  apply (decode_kv_record _ _ _ _ _ _ _ _ _ Dh);
    unfold len; rewrite ?length_fmap; auto using bytes_decode_ascii.
Qed.

(** ** Lengths and slices *)

Lemma len_nonneg {A} (l : list A) : 0 <= len l.
Proof. unfold len. lia. Qed.

Lemma len_app {A} (l k : list A) : len (l ++ k) = len l + len k.
Proof. unfold len. rewrite length_app. lia. Qed.

Lemma len_slice_to {A} (n : Z) (l : list A) :
  0 <= n -> len (slice_to n l) = Z.min n (len l).
Proof. intros H. unfold len, slice_to. rewrite length_take. lia. Qed.

Lemma len_slice_from {A} (n : Z) (l : list A) :
  0 <= n -> len (slice_from n l) = Z.max 0 (len l - n).
Proof. intros H. unfold len, slice_from. rewrite length_drop. lia. Qed.

Lemma slice_from_add {A} (p n : Z) (l : list A) :
  0 <= p -> 0 <= n -> slice_from (p + n) l = slice_from n (slice_from p l).
Proof.
  intros Hp Hn. unfold slice_from. rewrite drop_drop. f_equal. lia.
Qed.

(** ** Reading one record *)

Lemma decode_header_inv native data t k v :
  decode_header native data = Ok (t, k, v) ->
  len data = 12 /\ 0 <= t /\ 0 <= k /\ 0 <= v.
Proof.
  intros H. apply struct_unpack_III_inv in H as (L & ? & ? & ?).
  unfold len. rewrite L. repeat split; trivial.
Qed.

Lemma decode_kv_inv native data t ks vs :
  decode_kv native data = Ok (t, ks, vs) ->
  exists k v,
    decode_header native (slice_to HEADER_SIZE data) = Ok (t, k, v)
    /\ len data = HEADER_SIZE + k + v
    /\ bytes_decode (slice_to k (slice_from HEADER_SIZE data)) = Ok ks
    /\ bytes_decode (slice_to v (slice_from (HEADER_SIZE + k) data)) = Ok vs.
Proof.
  unfold decode_kv.
  destruct (decode_header native (slice_to HEADER_SIZE data))
    as [[[t' k] v]|] eqn:Eh; [|discriminate].
  simpl. unfold struct_unpack_ss.
  destruct (len (slice_from HEADER_SIZE data) =? k + v) eqn:El; [|discriminate].
  simpl.
  destruct (bytes_decode (take (Z.to_nat k) (slice_from HEADER_SIZE data)))
    as [ks'|] eqn:Ek; [|discriminate].
  simpl.
  destruct (bytes_decode _) as [vs'|] eqn:Ev in |- *; [|discriminate].
  simpl. intros [= <- <- <-]. exists k, v.
  pose proof (decode_header_inv _ _ _ _ _ Eh) as (Lh & _ & Hk & Hv).
  apply Z.eqb_eq in El.
  rewrite len_slice_to in Lh by (unfold HEADER_SIZE; lia).
  rewrite len_slice_from in El by (unfold HEADER_SIZE; lia).
  unfold HEADER_SIZE in *.
  repeat split; trivial; [lia|].
  rewrite slice_from_add by lia. exact Ev.
Qed.

Lemma parse_record_inv native rest t k v sz :
  parse_record native rest = Ok (t, k, v, sz) ->
  12 <= sz <= len rest.
Proof.
  unfold parse_record.
  destruct (decode_header native (slice_to HEADER_SIZE rest))
    as [[[t' k_sz] v_sz]|] eqn:Eh; [|discriminate].
  simpl.
  destruct (decode_kv native _) as [[[t'' k'] v']|] eqn:Ed; [|discriminate].
  simpl. intros [= <- <- <- <-].
  pose proof (decode_header_inv _ _ _ _ _ Eh) as (Lh & _ & Hk & Hv).
  apply decode_kv_inv in Ed as (k2 & v2 & Eh2 & Ld & _).
  unfold slice_to at 1 in Eh2.
  rewrite take_app_length' in Eh2 by (unfold len, HEADER_SIZE in *; lia).
  rewrite Eh in Eh2. injection Eh2 as -> -> ->.
  rewrite len_app, Lh in Ld.
  rewrite len_slice_to, len_slice_from in Ld by (unfold HEADER_SIZE; lia).
  rewrite len_slice_to in Lh by (unfold HEADER_SIZE; lia).
  unfold HEADER_SIZE in *. lia.
Qed.

Lemma init_db_body_parsed native cur data pos kd t k v sz :
  0 <= pos -> 0 <= cur ->
  parse_record native (slice_from pos data) = Ok (t, k, v, sz) ->
  init_db_body native cur (mk (mk_file data pos false) kd)
  = (Ok (cur + sz), mk (mk_file data (cur + sz) false) (<[k := cur]> kd)).
Proof.
  intros Hpos Hcur H. pose proof (parse_record_inv _ _ _ _ _ _ H) as Hsz.
  revert H. unfold parse_record, init_db_body. unfold_M.
  destruct (decode_header native (slice_to HEADER_SIZE (slice_from pos data)))
    as [[[t' k_sz] v_sz]|] eqn:Eh; [|discriminate].
  simpl.
  pose proof (decode_header_inv _ _ _ _ _ Eh) as (Lh & _ & Hk & Hv).
  rewrite Lh.
  replace (k_sz + v_sz <? 0) with false by (symmetry; apply Z.ltb_ge; lia).
  rewrite (slice_from_add pos 12) by lia. fold HEADER_SIZE.
  destruct (decode_kv native _) as [[[t'' k'] v']|] eqn:Ed; [|discriminate].
  simpl. intros [= <- <- <- <-].
  replace (cur + HEADER_SIZE + k_sz + v_sz <? 0) with false
    by (symmetry; apply Z.ltb_ge; unfold HEADER_SIZE; lia).
  now rewrite !Z.add_assoc.
Qed.

Lemma init_db_body_failed native cur data pos kd e :
  0 <= pos ->
  parse_record native (slice_from pos data) = Raise e ->
  exists pos',
    init_db_body native cur (mk (mk_file data pos false) kd)
    = (Raise e, mk (mk_file data pos' false) kd).
Proof.
  intros Hpos. unfold parse_record, init_db_body. unfold_M.
  destruct (decode_header native (slice_to HEADER_SIZE (slice_from pos data)))
    as [[[t' k_sz] v_sz]|] eqn:Eh; simpl.
  - pose proof (decode_header_inv _ _ _ _ _ Eh) as (Lh & _ & Hk & Hv).
    rewrite Lh.
    replace (k_sz + v_sz <? 0) with false by (symmetry; apply Z.ltb_ge; lia).
    rewrite (slice_from_add pos 12) by lia. fold HEADER_SIZE.
    destruct (decode_kv native _) as [[[t'' k'] v']|] eqn:Ed; simpl;
      [discriminate|].
    intros [= <-]. eauto.
  - intros [= <-]. eauto.
Qed.

(** ** Which exceptions the decoders raise *)

Lemma fmap_result_raise {A B} (f : A -> B) (r : result A) e :
  f <$> r = Raise e -> r = Raise e.
Proof. destruct r; simpl; [discriminate | congruence]. Qed.

Lemma bytes_decode_raise bs e :
  bytes_decode bs = Raise e -> e = UnicodeDecodeError.
Proof.
  remember (length bs) as n eqn:Hn.
  assert (length bs <= n)%nat as Hle by lia. clear Hn.
  revert bs Hle. induction n as [|n IH]; intros bs Hle.
  - destruct bs; [discriminate | simpl in Hle; lia].
  - destruct bs as [|b0 r0]; [discriminate|].
    cbn [bytes_decode]. simpl in Hle.
    repeat case_match; subst; simpl in Hle;
      try (intros [= <-]; reflexivity);
      intros ?%fmap_result_raise; (eapply IH; [|eassumption]); lia.
Qed.

Lemma decode_header_raise native data e :
  decode_header native data = Raise e -> e = StructError.
Proof.
  unfold decode_header, struct_unpack_III. case_match; congruence.
Qed.

Lemma decode_kv_raise native data e :
  decode_kv native data = Raise e ->
  e = StructError \/ e = UnicodeDecodeError.
Proof.
  unfold decode_kv.
  destruct (decode_header native _) as [[[t k] v]|] eqn:Eh; simpl.
  2: { intros [= <-]. left. eapply decode_header_raise, Eh. }
  unfold struct_unpack_ss. case_match; simpl; [|intros [= <-]; now left].
  repeat match goal with
         | |- context [bytes_decode ?x] =>
             let E := fresh "E" in destruct (bytes_decode x) eqn:E; simpl
         end;
    try discriminate;
    intros [= <-]; right; eapply bytes_decode_raise; eassumption.
Qed.

Lemma parse_record_raise native rest e :
  parse_record native rest = Raise e ->
  e = StructError \/ e = UnicodeDecodeError.
Proof.
  unfold parse_record.
  destruct (decode_header native _) as [[[t k] v]|] eqn:Eh; simpl.
  2: { intros [= <-]. left. eapply decode_header_raise, Eh. }
  destruct (decode_kv native _) as [[[t' k'] v']|] eqn:Ed; simpl;
    [discriminate|].
  intros [= <-]. eapply decode_kv_raise, Ed.
Qed.

(** ** The scan of [__init_db] *)

(** The loop always ends within the iterations [__init_db] allows it: each
    round moves the pointer by at least the 12 bytes of a header. *)
Lemma init_db_loop_fuel native (fuel : nat) (total cur : Z) data kd :
  0 <= cur -> total - cur <= Z.of_nat fuel ->
  exists r data_pos,
    init_db_loop native fuel total cur (mk (mk_file data cur false) kd)
    = Some (r, data_pos)
    /\ f_data (file_store data_pos) = data
    /\ f_closed (file_store data_pos) = false.
Proof.
  revert cur kd. induction fuel as [|fuel IH]; intros cur kd Hcur Hfuel.
  - simpl. replace (cur <? total) with false by (symmetry; apply Z.ltb_ge; lia).
    eauto.
  - cbn [init_db_loop]. destruct (cur <? total) eqn:Hlt; [|eauto].
    destruct (parse_record native (slice_from cur data))
      as [[[[t k] v] sz]|e] eqn:Ep.
    + rewrite (init_db_body_parsed _ _ _ _ _ _ _ _ _ Hcur Hcur Ep).
      apply parse_record_inv in Ep. apply IH; lia.
    + destruct (init_db_body_failed _ cur _ _ kd _ Hcur Ep) as (pos' & ->).
      eauto.
Qed.

Lemma init_small native (data : bytes) :
  len data < 10 ->
  __init__ native (Some data) = Some (Ok (mk (mk_file data (len data) false) ∅)).
Proof.
  intros H. unfold __init__, __init_db, py_open. unfold_M.
  pose proof (len_nonneg data).
  replace (len data + 0 <? 0) with false by (symmetry; apply Z.ltb_ge; lia).
  simpl. rewrite Z.add_0_r. apply Z.ltb_lt in H. now rewrite H.
Qed.

Lemma init_fresh native :
  __init__ native None = Some (Ok (mk (mk_file [] 0 false) ∅)).
Proof. reflexivity. Qed.

Lemma init_large native (data : bytes) :
  10 <= len data ->
  __init__ native (Some data)
  = match init_db_loop native (Z.to_nat (len data)) (len data) 0
            (mk (mk_file data 0 false) ∅) with
    | None => None
    | Some (Ok _, self) => Some (Ok self)
    | Some (Raise e, _) => Some (Raise e)
    end.
Proof.
  intros H. unfold __init__, __init_db, py_open. unfold_M.
  replace (len data + 0 <? 0) with false by (symmetry; apply Z.ltb_ge; lia).
  simpl. rewrite Z.add_0_r. apply Z.ltb_ge in H. now rewrite H.
Qed.

(** The constructor always returns or raises. *)
Lemma init_terminates native (on_disk : option bytes) :
  exists r, __init__ native on_disk = Some r.
Proof.
  destruct on_disk as [data|]; [|rewrite init_fresh; eauto].
  destruct (Z.lt_ge_cases (len data) 10) as [H|H].
  - rewrite init_small by assumption. eauto.
  - rewrite init_large by assumption.
    destruct (init_db_loop_fuel native (Z.to_nat (len data)) (len data) 0 data ∅)
      as ([u|e] & s & -> & _); [lia | lia | eauto | eauto].
Qed.

Lemma slice_to_app_header (hd tl : bytes) :
  len hd = 12 -> slice_to HEADER_SIZE (hd ++ tl) = hd.
Proof.
  intros H. unfold slice_to. apply take_app_length'.
  unfold len, HEADER_SIZE in *. lia.
Qed.

Lemma slice_from_app_header (hd tl : bytes) :
  len hd = 12 -> slice_from HEADER_SIZE (hd ++ tl) = tl.
Proof.
  intros H. unfold slice_from. apply drop_app_length'.
  unfold len, HEADER_SIZE in *. lia.
Qed.

Lemma parse_record_short_header native rest :
  len rest < HEADER_SIZE -> parse_record native rest = Raise StructError.
Proof.
  intros H. unfold parse_record, decode_header, struct_unpack_III.
  pose proof (len_nonneg rest).
  rewrite len_slice_to by (unfold HEADER_SIZE; lia).
  replace (_ =? 12) with false; [reflexivity|].
  symmetry. apply Z.eqb_neq. unfold HEADER_SIZE in *. lia.
Qed.

Lemma parse_record_short_body native rest t k v :
  decode_header native (slice_to HEADER_SIZE rest) = Ok (t, k, v) ->
  len rest < HEADER_SIZE + k + v ->
  parse_record native rest = Raise StructError.
Proof.
  intros Eh H. unfold parse_record. rewrite Eh. simpl.
  pose proof (decode_header_inv _ _ _ _ _ Eh) as (Lh & _ & Hk & Hv).
  unfold decode_kv.
  rewrite slice_to_app_header, slice_from_app_header by exact Lh.
  rewrite Eh. simpl.
  unfold struct_unpack_ss.
  rewrite len_slice_to, len_slice_from by (unfold HEADER_SIZE; lia).
  replace (_ =? k + v) with false; [reflexivity|].
  rewrite len_slice_to in Lh by (unfold HEADER_SIZE; lia).
  symmetry. apply Z.eqb_neq. unfold HEADER_SIZE in *. lia.
Qed.

Lemma scan_truncated native (rest : bytes) :
  truncated native rest ->
  forall (fuel : nat) (cur : Z) data kd,
    0 <= cur -> slice_from cur data = rest ->
    len data - cur <= Z.of_nat fuel ->
    exists e self,
      init_db_loop native fuel (len data) cur (mk (mk_file data cur false) kd)
      = Some (Raise e, self)
      /\ (e = StructError \/ e = UnicodeDecodeError).
Proof.
  assert (forall (cur : Z) (data : bytes), 0 <= cur ->
            0 < len (slice_from cur data) -> cur < len data) as Hin.
  { intros cur data Hc. rewrite len_slice_from by assumption. lia. }
  induction 1 as [rest Hlen | rest t k v Eh Hlen | rest t k v Eh Hlen Htr IH];
    intros fuel cur data kd Hcur Hrest Hfuel.
  - assert (cur < len data) as Hlt by (apply Hin; [|rewrite Hrest]; lia).
    destruct fuel as [|fuel]; [lia|]. cbn [init_db_loop].
    apply Z.ltb_lt in Hlt. rewrite Hlt.
    destruct (init_db_body_failed native cur data cur kd StructError Hcur)
      as (pos' & ->); [|eauto].
    rewrite Hrest. apply parse_record_short_header. lia.
  - pose proof (decode_header_inv _ _ _ _ _ Eh) as (Lh & _ & Hk & Hv).
    rewrite len_slice_to in Lh by (unfold HEADER_SIZE; lia).
    assert (cur < len data) as Hlt
      by (apply Hin; [|rewrite Hrest]; unfold HEADER_SIZE in *; lia).
    destruct fuel as [|fuel]; [lia|]. cbn [init_db_loop].
    apply Z.ltb_lt in Hlt. rewrite Hlt.
    destruct (init_db_body_failed native cur data cur kd StructError Hcur)
      as (pos' & ->); [|eauto].
    rewrite Hrest. eapply parse_record_short_body; eassumption.
  - pose proof (decode_header_inv _ _ _ _ _ Eh) as (Lh & _ & Hk & Hv).
    rewrite len_slice_to in Lh by (unfold HEADER_SIZE; lia).
    assert (cur < len data) as Hlt
      by (apply Hin; [|rewrite Hrest]; unfold HEADER_SIZE in *; lia).
    destruct fuel as [|fuel]; [lia|]. cbn [init_db_loop].
    apply Z.ltb_lt in Hlt. rewrite Hlt.
    destruct (parse_record native rest) as [[[[t' ks] vs] sz]|e] eqn:Ep.
    + assert (sz = HEADER_SIZE + k + v) as ->.
      { revert Ep. unfold parse_record. rewrite Eh. simpl.
        destruct (decode_kv native _) as [[[? ?] ?]|]; simpl; congruence. }
      rewrite <- Hrest in Ep.
      rewrite (init_db_body_parsed _ _ _ _ _ _ _ _ _ Hcur Hcur Ep).
      apply IH.
      * unfold HEADER_SIZE. lia.
      * rewrite slice_from_add by (unfold HEADER_SIZE; lia). now rewrite Hrest.
      * unfold HEADER_SIZE. lia.
    + rewrite <- Hrest in Ep.
      destruct (init_db_body_failed native cur data cur kd e Hcur Ep)
        as (pos' & ->).
      rewrite Hrest in Ep. apply parse_record_raise in Ep. eauto.
Qed.

(** ** [set], [get] and [close] *)

Lemma set_encoded native now key value n rec data pos kd :
  encode_kv native now key value = Ok (n, rec) ->
  set native now key value (mk (mk_file data pos false) kd)
  = (Ok tt, mk (mk_file (data ++ rec) (len data + len rec) false)
               (<[key := len data]> kd)).
Proof.
  intros E. unfold set. unfold_M.
  pose proof (len_nonneg data).
  replace (len data + 0 <? 0) with false by (symmetry; apply Z.ltb_ge; lia).
  simpl. rewrite E. simpl. rewrite Z.add_0_r.
  destruct rec as [|b rec]; simpl.
  - now rewrite app_nil_r, Z.add_0_r.
  - replace (Z.to_nat (len data)) with (length data) by (unfold len; lia).
    rewrite take_ge, drop_ge by lia.
    replace (length data - length data)%nat with 0%nat by lia.
    simpl. now rewrite app_nil_r.
Qed.

Lemma set_not_encoded native now key value e data pos kd :
  encode_kv native now key value = Raise e ->
  set native now key value (mk (mk_file data pos false) kd)
  = (Raise e, mk (mk_file data (len data) false) kd).
Proof.
  intros E. unfold set. unfold_M.
  pose proof (len_nonneg data).
  replace (len data + 0 <? 0) with false by (symmetry; apply Z.ltb_ge; lia).
  simpl. rewrite E. simpl. now rewrite Z.add_0_r.
Qed.

Lemma set_closed native now key value self :
  f_closed (file_store self) = true ->
  set native now key value self = (Raise ValueError, self).
Proof.
  destruct self as [[data pos closed] kd]; simpl. intros ->. reflexivity.
Qed.

Lemma get_absent native key self :
  key_dir self !! key = None -> get native key self = (Ok [], self).
Proof. intros H. unfold get. now rewrite H. Qed.

Lemma get_closed native key self off :
  f_closed (file_store self) = true ->
  key_dir self !! key = Some off ->
  get native key self = (Raise ValueError, self).
Proof.
  destruct self as [[data pos closed] kd]; simpl. intros -> H.
  unfold get. simpl. rewrite H. reflexivity.
Qed.

Lemma get_parsed native key data pos kd off t k v sz :
  kd !! key = Some off -> 0 <= off ->
  parse_record native (slice_from off data) = Ok (t, k, v, sz) ->
  get native key (mk (mk_file data pos false) kd)
  = (Ok v, mk (mk_file data (off + sz) false) kd).
Proof.
  intros Hk Hoff. unfold get, parse_record. simpl. rewrite Hk. unfold_M.
  replace (off <? 0) with false by (symmetry; apply Z.ltb_ge; lia).
  simpl.
  destruct (decode_header native (slice_to HEADER_SIZE (slice_from off data)))
    as [[[t' k_sz] v_sz]|] eqn:Eh; [|discriminate].
  simpl.
  pose proof (decode_header_inv _ _ _ _ _ Eh) as (Lh & _ & Hks & Hvs).
  replace (off + HEADER_SIZE <? 0) with false
    by (symmetry; apply Z.ltb_ge; unfold HEADER_SIZE; lia).
  simpl.
  replace (k_sz + v_sz <? 0) with false by (symmetry; apply Z.ltb_ge; lia).
  rewrite (slice_from_add off HEADER_SIZE) by (unfold HEADER_SIZE; lia).
  destruct (decode_kv native _) as [[[t'' k'] v']|] eqn:Ed; [|discriminate].
  simpl. intros [= <- <- <- <-].
  apply decode_kv_inv in Ed as (k2 & v2 & Eh2 & Ld & _).
  rewrite slice_to_app_header in Eh2 by exact Lh.
  rewrite Eh in Eh2. injection Eh2 as <- <-.
  rewrite len_app, Lh in Ld.
  do 3 f_equal. unfold HEADER_SIZE in *. lia.
Qed.

(** [get] changes neither the index nor the file, whatever it returns or
    raises; it does not close the file either. *)
Lemma get_frame native key self :
  key_dir (get native key self).2 = key_dir self
  /\ f_data (file_store (get native key self).2) = f_data (file_store self)
  /\ f_closed (file_store (get native key self).2) = f_closed (file_store self).
Proof.
  destruct self as [[data pos closed] kd]. unfold get. simpl.
  destruct (kd !! key) as [off|]; [|auto].
  unfold_M. destruct closed; [auto|].
  repeat (case_match; simpl in *; simplify_eq; auto).
Qed.

(** ** Records in the log *)

Lemma slice_to_app_le {A} (n : Z) (l k : list A) :
  n <= len l -> slice_to n (l ++ k) = slice_to n l.
Proof.
  intros H. unfold slice_to. apply take_app_le. unfold len in H. lia.
Qed.

Lemma slice_from_app_le {A} (n : Z) (l k : list A) :
  n <= len l -> slice_from n (l ++ k) = slice_from n l ++ k.
Proof.
  intros H. unfold slice_from. apply drop_app_le. unfold len in H. lia.
Qed.

Lemma slice_from_len {A} (l k : list A) : slice_from (len l) (l ++ k) = k.
Proof.
  unfold slice_from, len. rewrite Nat2Z.id. apply drop_app_length.
Qed.

Lemma slice_from_0 {A} (l : list A) : slice_from 0 l = l.
Proof. reflexivity. Qed.

(** A record that parses keeps parsing, to the same result, when bytes are
    appended to the file. *)
Lemma parse_record_app native rest extra r :
  parse_record native rest = Ok r ->
  parse_record native (rest ++ extra) = Ok r.
Proof.
  destruct r as [[[t ks] vs] sz]. intros H.
  pose proof (parse_record_inv _ _ _ _ _ _ H) as Hsz.
  revert H. unfold parse_record.
  rewrite (slice_to_app_le HEADER_SIZE), (slice_from_app_le HEADER_SIZE)
    by (unfold HEADER_SIZE; lia).
  destruct (decode_header native (slice_to HEADER_SIZE rest))
    as [[[t' k] v]|] eqn:Eh; [|discriminate].
  simpl.
  destruct (decode_kv native _) as [[[t'' k'] v']|] eqn:Ed; [|discriminate].
  simpl. intros [= <- <- <- <-].
  rewrite slice_to_app_le.
  - now rewrite Ed.
  - pose proof (decode_header_inv _ _ _ _ _ Eh) as (Lh & _ & Hk & Hv).
    rewrite len_slice_from by (unfold HEADER_SIZE; lia).
    unfold HEADER_SIZE in *. lia.
Qed.

(** The record [encode_kv] makes of ASCII text parses back to the text. *)
Lemma parse_record_encoded native now key value n rec tail :
  is_ascii key -> is_ascii value ->
  encode_kv native now key value = Ok (n, rec) ->
  parse_record native (rec ++ tail) = Ok (now, key, value, n).
Proof.
  intros Ak Av E.
  pose proof (encode_kv_inv _ _ _ _ _ _ E) as (Hn & Ln & Hnow).
  revert E. unfold encode_kv.
  rewrite (str_encode_ascii _ Ak), (str_encode_ascii _ Av). simpl.
  destruct (encode_header native now (len key) (len value)) as [hd|] eqn:Eh;
    [|discriminate].
  simpl. intros [= _ <-].
  apply struct_pack_III_inv in Eh as Hh. destruct Hh as (_ & Hk & Hv & Lh).
  destruct (struct_pack_III_ok native now (len key) (len value) Hnow Hk Hv)
    as (hd' & Eh' & _ & Dh).
  unfold encode_header in Eh. rewrite Eh in Eh'. injection Eh' as <-.
  unfold struct_pack_ss. rewrite !pack_s_len by (rewrite length_fmap; lia).
  rewrite !take_ge by (rewrite length_fmap; lia).
  apply parse_record_app. rewrite <- (app_nil_r (_ ++ _)).
  unfold parse_record.
  rewrite slice_to_app_le, slice_from_app_le
    by (rewrite !len_app; unfold HEADER_SIZE, len; rewrite Lh; lia).
  rewrite slice_to_app_header, slice_from_app_header by (unfold len; lia).
  fold (decode_header native hd) in Dh. rewrite Dh. simpl.
  rewrite app_nil_r.
  replace (slice_to _ _) with ((byte_of_N <$> key) ++ (byte_of_N <$> value)).
  2: { unfold slice_to. rewrite take_ge; [reflexivity|].
       rewrite length_app, !length_fmap. unfold len. lia. }
  erewrite decode_kv_record; [| exact Dh | | | |];
    rewrite ?bytes_decode_ascii; try reflexivity; try assumption;
    try (unfold len; now rewrite length_fmap).
  simpl. now rewrite Hn.
Qed.

(** ** Appending a record *)

(** The record [encode_kv] returns, read back by the steps of the decoder:
    a header and two fields [kf], [vf] of the sizes the header declares. *)
Lemma encode_kv_fields native now key value total rec :
  encode_kv native now key value = Ok (total, rec) ->
  exists kf vf,
    decode_header native (slice_to HEADER_SIZE rec) = Ok (now, len kf, len vf)
    /\ struct_unpack_ss (len kf) (len vf) (slice_from HEADER_SIZE rec)
       = Ok (kf, vf)
    /\ rec = slice_to HEADER_SIZE rec ++ kf ++ vf
    /\ total = 12 + len kf + len vf
    /\ len kf = len key /\ len vf = len value.
Proof.
  intros E. pose proof (encode_kv_inv _ _ _ _ _ _ E) as (Hn & Ln & Hnow).
  revert E. unfold encode_kv.
  destruct (str_encode key) as [kb|] eqn:Ek; [|discriminate].
  destruct (str_encode value) as [vb|] eqn:Ev; [|discriminate].
  simpl.
  destruct (encode_header native now (len key) (len value)) as [hd|] eqn:Eh;
    [|discriminate].
  simpl. intros [= _ <-].
  apply struct_pack_III_inv in Eh as Hh. destruct Hh as (_ & Hk & Hv & Lh).
  destruct (struct_pack_III_ok native now (len key) (len value) Hnow Hk Hv)
    as (hd' & Eh' & _ & Dh).
  unfold encode_header in Eh. rewrite Eh in Eh'. injection Eh' as <-.
  fold (decode_header native hd) in Dh.
  apply str_encode_length in Ek, Ev.
  unfold struct_pack_ss. rewrite !pack_s_len by assumption.
  set (kf := take (length key) kb). set (vf := take (length value) vb).
  assert (len kf = len key) as Lk
    by (unfold len, kf; rewrite length_take; lia).
  assert (len vf = len value) as Lv
    by (unfold len, vf; rewrite length_take; lia).
  exists kf, vf.
  rewrite slice_to_app_header, slice_from_app_header by (unfold len; lia).
  rewrite Lk, Lv. repeat split; try assumption; try reflexivity.
  unfold struct_unpack_ss. rewrite len_app, Lk, Lv, Z.eqb_refl.
  rewrite <- Lk, <- Lv. unfold len. rewrite !Nat2Z.id.
  now rewrite take_app_length, drop_app_length, take_ge by lia.
Qed.

(** What a successful [set] does to an open store. *)
Lemma set_appends native now key value self total rec :
  f_closed (file_store self) = false ->
  encode_kv native now key value = Ok (total, rec) ->
  set native now key value self
  = (Ok tt,
     mk (mk_file (f_data (file_store self) ++ rec)
           (len (f_data (file_store self)) + total) false)
        (<[key := len (f_data (file_store self))]> (key_dir self))).
Proof.
  destruct self as [[data pos closed] kd]. simpl. intros -> E.
  rewrite (set_encoded _ _ _ _ _ _ _ _ _ E).
  apply encode_kv_inv in E as (_ & -> & _). reflexivity.
Qed.

(** After a successful [set] of ASCII text, [get] of the key returns the
    value. *)
Lemma get_after_set native now key value self total rec :
  f_closed (file_store self) = false ->
  is_ascii key -> is_ascii value ->
  encode_kv native now key value = Ok (total, rec) ->
  (get native key (set native now key value self).2).1 = Ok value.
Proof.
  intros Hopen Ak Av E. rewrite (set_appends _ _ _ _ _ _ _ Hopen E). simpl.
  erewrite (get_parsed native key _ _ _ _ now key value total);
    [reflexivity | apply lookup_insert_eq | apply len_nonneg |].
  rewrite slice_from_len, <- (app_nil_r rec).
  now apply parse_record_encoded.
Qed.

(** A successful [set] leaves the answer for every other key whose record
    parses as it was. *)
Lemma get_other_after_set native now key value self total rec key' off t k v sz :
  f_closed (file_store self) = false ->
  encode_kv native now key value = Ok (total, rec) ->
  key' <> key ->
  key_dir self !! key' = Some off -> 0 <= off ->
  parse_record native (slice_from off (f_data (file_store self)))
  = Ok (t, k, v, sz) ->
  (get native key' (set native now key value self).2).1 = Ok v.
Proof.
  intros Hopen E Hne Hoff Hoff0 Hp.
  rewrite (set_appends _ _ _ _ _ _ _ Hopen E). simpl.
  erewrite get_parsed; [reflexivity | | exact Hoff0 |].
  - rewrite lookup_insert_ne by congruence. exact Hoff.
  - pose proof (parse_record_inv _ _ _ _ _ _ Hp) as Hsz.
    rewrite len_slice_from in Hsz by assumption.
    rewrite slice_from_app_le by lia.
    apply parse_record_app. exact Hp.
Qed.

Lemma offset_example native (now1 now2 : Z) :
  0 <= now1 < 4294967296 -> 0 <= now2 < 4294967296 ->
  let othello := text "othello" in
  let hamlet := text "hamlet" in
  let shakespeare := text "shakespeare" in
  let s1 := (set native now1 othello shakespeare fresh).2 in
  let s2 := (set native now2 hamlet shakespeare s1).2 in
  (set native now1 othello shakespeare fresh).1 = Ok tt
  /\ (set native now2 hamlet shakespeare s1).1 = Ok tt
  /\ key_dir s2 !! hamlet = Some (12 + len othello + len shakespeare)
  /\ (get native othello s2).1 = Ok shakespeare.
Proof.
  intros H1 H2 othello hamlet shakespeare.
  assert (is_ascii othello) as Ao by (subst othello; ascii_text).
  assert (is_ascii hamlet) as Ah by (subst hamlet; ascii_text).
  assert (is_ascii shakespeare) as As by (subst shakespeare; ascii_text).
  destruct (codec_roundtrip_ascii native now1 othello shakespeare Ao As H1)
    as (n1 & rec1 & E1 & D1); [reflexivity | reflexivity |].
  destruct (codec_roundtrip_ascii native now2 hamlet shakespeare Ah As H2)
    as (n2 & rec2 & E2 & D2); [reflexivity | reflexivity |].
  pose proof (encode_kv_inv _ _ _ _ _ _ E1) as (Hn1 & L1 & _).
  intros s1 s2. subst s2 s1.
  unfold fresh. rewrite (set_encoded _ _ _ _ _ _ _ _ _ E1).
  cbn [snd fst app].
  rewrite (set_encoded _ _ _ _ _ _ _ _ _ E2).
  cbn [snd fst file_store key_dir f_data].
  split; [reflexivity|]. split; [reflexivity|]. split.
  - rewrite lookup_insert_eq, L1, Hn1. reflexivity.
  - erewrite (get_parsed native othello _ _ _ 0 now1 othello shakespeare n1);
      [reflexivity | | lia |].
    + rewrite lookup_insert_ne by discriminate. apply lookup_insert_eq.
    + rewrite slice_from_0. now apply parse_record_encoded.
Qed.

(** ** Logs cut short *)

Lemma cut_log_truncated : truncated LittleEndian cut_log.
Proof.
  apply (trunc_later _ _ 1700000000 7 11); [reflexivity | vm_compute; discriminate |].
  apply (trunc_body _ _ 1700000001 6 11); [reflexivity | reflexivity].
Qed.

Lemma bad_text_cut_log_truncated : truncated LittleEndian bad_text_cut_log.
Proof.
  apply (trunc_later _ _ 0 1 0); [reflexivity | vm_compute; discriminate |].
  apply trunc_header. split; reflexivity.
Qed.

(** ** What holds on ASCII text

    Where the character count of the key and of the value is their byte
    count, the store behaves as a key-value store. *)

Lemma encode_kv_ascii native now key value :
  ascii_call (now, key, value) ->
  exists rec,
    encode_kv native now key value = Ok (12 + len key + len value, rec)
    /\ len rec = 12 + len key + len value
    /\ forall tail,
         parse_record native (rec ++ tail)
         = Ok (now, key, value, 12 + len key + len value).
Proof.
  intros (Ak & Av & Hnow & Hk & Hv).
  destruct (codec_roundtrip_ascii native now key value Ak Av Hnow Hk Hv)
    as (n & rec & E & _).
  pose proof (encode_kv_inv _ _ _ _ _ _ E) as (-> & Ln & _).
  exists rec. split; [exact E|]. split; [exact Ln|].
  intros tail. now apply parse_record_encoded.
Qed.

(** Last write wins, and both records stay in the file. *)
Lemma last_write_wins_ascii native now1 now2 key v1 v2 self :
  f_closed (file_store self) = false ->
  ascii_call (now1, key, v1) -> ascii_call (now2, key, v2) ->
  let s1 := (set native now1 key v1 self).2 in
  let s2 := (set native now2 key v2 s1).2 in
  (get native key s2).1 = Ok v2
  /\ exists rec1 rec2,
       f_data (file_store s2) = f_data (file_store self) ++ rec1 ++ rec2
       /\ parse_record native rec1 = Ok (now1, key, v1, len rec1)
       /\ parse_record native rec2 = Ok (now2, key, v2, len rec2).
Proof.
  intros Hopen C1 C2.
  destruct (encode_kv_ascii native _ _ _ C1) as (rec1 & E1 & L1 & P1).
  destruct (encode_kv_ascii native _ _ _ C2) as (rec2 & E2 & L2 & P2).
  destruct C2 as (Ak & Av2 & _).
  intros s1 s2. subst s2.
  assert (f_closed (file_store s1) = false) as Hopen1
    by (subst s1; now rewrite (set_appends _ _ _ _ _ _ _ Hopen E1)).
  split; [now apply (get_after_set _ _ _ _ _ _ _ Hopen1 Ak Av2 E2)|].
  exists rec1, rec2.
  rewrite (set_appends _ _ _ _ _ _ _ Hopen1 E2). subst s1.
  rewrite (set_appends _ _ _ _ _ _ _ Hopen E1). simpl.
  rewrite <- app_assoc. split; [reflexivity|].
  specialize (P1 []). specialize (P2 []). rewrite app_nil_r in P1, P2.
  now rewrite L1, L2.
Qed.

(** The index of a store can be trusted after the constructor, and stays
    so under [get] and under [set] of ASCII text. *)
Lemma index_ok_fresh native : index_ok native fresh.
Proof. intros k off H. discriminate H. Qed.

Lemma index_ok_set native now key value self :
  f_closed (file_store self) = false ->
  ascii_call (now, key, value) ->
  index_ok native self ->
  index_ok native (set native now key value self).2.
Proof.
  intros Hopen C Hok.
  destruct (encode_kv_ascii native _ _ _ C) as (rec & E & L & P).
  rewrite (set_appends _ _ _ _ _ _ _ Hopen E). simpl.
  intros k off. simpl. rewrite lookup_insert.
  destruct (decide (key = k)) as [<-|Hne].
  - intros [= <-]. split; [apply len_nonneg|].
    rewrite slice_from_len. specialize (P []). rewrite app_nil_r in P. eauto.
  - intros Hk. destruct (Hok k off Hk) as (Hoff & t & v & sz & Hp).
    split; [exact Hoff|]. exists t, v, sz.
    pose proof (parse_record_inv _ _ _ _ _ _ Hp) as Hsz.
    rewrite len_slice_from in Hsz by assumption.
    rewrite slice_from_app_le by lia. now apply parse_record_app.
Qed.

Lemma index_ok_get native key self :
  index_ok native self -> index_ok native (get native key self).2.
Proof.
  intros Hok k off. destruct (get_frame native key self) as (-> & -> & _).
  apply Hok.
Qed.

Lemma index_ok_loop native (fuel : nat) (cur : Z) data kd self :
  0 <= cur ->
  index_ok native (mk (mk_file data cur false) kd) ->
  init_db_loop native fuel (len data) cur (mk (mk_file data cur false) kd)
  = Some (Ok tt, self) ->
  index_ok native self /\ f_data (file_store self) = data
  /\ f_closed (file_store self) = false.
Proof.
  revert cur kd. induction fuel as [|fuel IH]; intros cur kd Hcur Hok;
    cbn [init_db_loop]; destruct (cur <? len data) eqn:Hlt;
    try discriminate; try (intros [= <-]; auto).
  destruct (parse_record native (slice_from cur data))
    as [[[[t k] v] sz]|e] eqn:Ep.
  - rewrite (init_db_body_parsed _ _ _ _ _ _ _ _ _ Hcur Hcur Ep).
    pose proof (parse_record_inv _ _ _ _ _ _ Ep) as Hsz.
    apply IH; [lia|].
    intros k' off. simpl. rewrite lookup_insert.
    destruct (decide (k = k')) as [<-|Hne].
    + intros [= <-]. split; [exact Hcur | eauto].
    + apply Hok.
  - destruct (init_db_body_failed _ cur _ _ kd _ Hcur Ep) as (pos' & ->).
    discriminate.
Qed.

Lemma index_ok_init native (on_disk : option bytes) self :
  __init__ native on_disk = Some (Ok self) ->
  index_ok native self /\ f_closed (file_store self) = false.
Proof.
  destruct on_disk as [data|].
  2: { rewrite init_fresh. intros [= <-]. split; [apply index_ok_fresh | reflexivity]. }
  destruct (Z.lt_ge_cases (len data) 10) as [H|H].
  - rewrite init_small by assumption. intros [= <-].
    split; [|reflexivity]. intros k off Hk. discriminate Hk.
  - rewrite init_large by assumption.
    destruct (init_db_loop native _ _ _ _) as [[[[]|e] s]|] eqn:El;
      try discriminate.
    intros [= <-].
    apply index_ok_loop in El as (? & _ & ?); [auto | lia |].
    intros k off Hk. discriminate Hk.
Qed.

(** On a store whose index can be trusted, [get] of a key in the index
    returns the value of the record the index points to, and that record
    carries the key. *)
Lemma get_of_index native key self off :
  index_ok native self ->
  f_closed (file_store self) = false ->
  key_dir self !! key = Some off ->
  exists t v sz,
    parse_record native (slice_from off (f_data (file_store self)))
    = Ok (t, key, v, sz)
    /\ (get native key self).1 = Ok v.
Proof.
  intros Hok Hopen Hk. destruct (Hok key off Hk) as (Hoff & t & v & sz & Hp).
  exists t, v, sz. split; [exact Hp|].
  destruct self as [[data pos closed] kd]. simpl in *. subst closed.
  now rewrite (get_parsed _ _ _ _ _ _ _ _ _ _ Hk Hoff Hp).
Qed.

(** The answer of [get] does not depend on where the file object stands. *)
Lemma get_any_position native key data (p1 p2 : Z) closed kd :
  (get native key (mk (mk_file data p1 closed) kd)).1
  = (get native key (mk (mk_file data p2 closed) kd)).1.
Proof.
  unfold get. simpl. destruct (kd !! key) as [off|]; [|reflexivity].
  unfold_M. destruct closed; [reflexivity|].
  destruct (off <? 0); reflexivity.
Qed.

Lemma get_same_file native key (s1 s2 : DiskStorage.t) :
  key_dir s1 = key_dir s2 ->
  f_data (file_store s1) = f_data (file_store s2) ->
  f_closed (file_store s1) = f_closed (file_store s2) ->
  (get native key s1).1 = (get native key s2).1.
Proof.
  destruct s1 as [[d1 p1 c1] k1], s2 as [[d2 p2 c2] k2]. simpl.
  intros -> -> ->. apply get_any_position.
Qed.

(** A sequence of such calls appends its log and builds its index. *)
Lemma run_sets_ascii native (calls : list (Z * str * str)) self :
  Forall ascii_call calls ->
  f_closed (file_store self) = false ->
  f_data (file_store (run_sets native calls self))
  = f_data (file_store self) ++ log_of_calls native calls
  /\ key_dir (run_sets native calls self)
     = index_of_calls calls (len (f_data (file_store self))) (key_dir self)
  /\ f_closed (file_store (run_sets native calls self)) = false.
Proof.
  intros Hcalls. revert self.
  induction Hcalls as [|[[now key] value] calls C _ IH]; intros self Hopen.
  - simpl. now rewrite app_nil_r.
  - destruct (encode_kv_ascii native _ _ _ C) as (rec & E & L & _).
    unfold run_sets in *. cbn [foldl log_of_calls index_of_calls].
    rewrite E.
    destruct (IH (set native now key value self).2) as (Hd & Hk & Hc).
    { now rewrite (set_appends _ _ _ _ _ _ _ Hopen E). }
    rewrite Hd, Hk, Hc. rewrite (set_appends _ _ _ _ _ _ _ Hopen E). simpl.
    rewrite <- app_assoc, len_app, L. auto.
Qed.

Lemma len_log_of_calls native (calls : list (Z * str * str)) :
  Forall ascii_call calls ->
  calls = [] \/ 12 <= len (log_of_calls native calls).
Proof.
  destruct 1 as [|[[now key] value] calls C _]; [now left|right].
  destruct (encode_kv_ascii native _ _ _ C) as (rec & E & L & _).
  cbn [log_of_calls]. rewrite E, len_app, L.
  pose proof (len_nonneg key). pose proof (len_nonneg value).
  pose proof (len_nonneg (log_of_calls native calls)). lia.
Qed.

(** The scan of such a log rebuilds the index the calls built. *)
Lemma scan_log_of_calls native (calls : list (Z * str * str)) :
  Forall ascii_call calls ->
  forall (pre : bytes) (fuel : nat) (kd : gmap str Z),
    len (log_of_calls native calls) <= Z.of_nat fuel ->
    init_db_loop native fuel (len (pre ++ log_of_calls native calls)) (len pre)
      (mk (mk_file (pre ++ log_of_calls native calls) (len pre) false) kd)
    = Some (Ok tt,
            mk (mk_file (pre ++ log_of_calls native calls)
                  (len (pre ++ log_of_calls native calls)) false)
               (index_of_calls calls (len pre) kd)).
Proof.
  induction 1 as [|[[now key] value] calls C _ IH]; intros pre fuel kd Hfuel.
  - cbn [log_of_calls index_of_calls]. rewrite app_nil_r.
    destruct fuel; cbn [init_db_loop]; now rewrite Z.ltb_irrefl.
  - destruct (encode_kv_ascii native _ _ _ C) as (rec & E & L & P).
    cbn [log_of_calls index_of_calls] in *. rewrite E in *.
    rewrite len_app in Hfuel.
    pose proof (len_nonneg key). pose proof (len_nonneg value).
    pose proof (len_nonneg (log_of_calls native calls)).
    destruct fuel as [|fuel]; [lia|]. cbn [init_db_loop].
    replace (len pre <? _) with true
      by (symmetry; apply Z.ltb_lt; rewrite !len_app; lia).
    erewrite init_db_body_parsed;
      [ | apply len_nonneg | apply len_nonneg
        | rewrite slice_from_len; apply P ].
    rewrite <- L, <- len_app, (app_assoc pre rec).
    apply IH. lia.
Qed.

(** Reopening after such calls on a fresh file gives a store with the same
    index over the same file, so [get] answers as before. *)
Lemma reopen_ascii native (calls : list (Z * str * str)) :
  Forall ascii_call calls ->
  let s1 := run_sets native calls fresh in
  exists s2,
    reopen native (close s1).2 = Some (Ok s2)
    /\ key_dir s2 = key_dir s1
    /\ f_data (file_store s2) = f_data (file_store s1)
    /\ forall key, (get native key s2).1 = (get native key s1).1.
Proof.
  intros Hcalls s1.
  destruct (run_sets_ascii native calls fresh Hcalls eq_refl) as (Hd & Hk & Hc).
  fold s1 in Hd, Hk, Hc. simpl in Hd, Hk.
  unfold reopen, close, on_file, f_close. simpl. rewrite Hd.
  assert (forall s2, key_dir s2 = key_dir s1 ->
            f_data (file_store s2) = log_of_calls native calls ->
            f_closed (file_store s2) = false ->
            key_dir s2 = key_dir s1
            /\ f_data (file_store s2) = log_of_calls native calls
            /\ forall key, (get native key s2).1 = (get native key s1).1) as Hsame.
  { intros s2 H1 H2 H3. split; [exact H1|]. split; [exact H2|].
    intros key. apply get_same_file; congruence. }
  destruct (len_log_of_calls native calls Hcalls) as [->|Hlen].
  - eexists. split; [reflexivity|]. now apply Hsame.
  - rewrite init_large by lia.
    rewrite (scan_log_of_calls native calls Hcalls [] _ ∅) by lia.
    eexists. split; [reflexivity|]. apply Hsame; [|reflexivity|reflexivity].
    simpl. now rewrite Hk.
Qed.

(** * The claims *)

(** C1 (defect in [encode_kv]): the round trip fails on text outside ASCII.
    [encode_kv] sizes the key and value fields by [len(key)] and
    [len(value)], the character counts, so [struct.pack] cuts the UTF-8
    bytes short. For the valid triple of timestamp 0, key "é" and empty
    value, decoding the encoded bytes raises UnicodeDecodeError; with the
    key "éa" it returns the key "é". *)
Theorem C1_roundtrip_breaks_outside_ascii (native : byteorder) :
  wf_str e_acute /\ wf_str e_acute_a
  /\ (encode_kv native 0 e_acute [] ≫= fun r => decode_kv native r.2)
     = Raise UnicodeDecodeError
  /\ (encode_kv native 0 e_acute_a [] ≫= fun r => decode_kv native r.2)
     = Ok (0, e_acute, []).
Proof.
  split; [|split].
  - repeat constructor.
  - repeat constructor.
  - destruct native; split; vm_compute; reflexivity.
Qed.

(** C2 (defect in [encode_kv]): the sizes are character counts, not byte
    lengths. The key "é" encodes to 2 bytes, yet [encode_kv] returns the
    total length 13 (not 12 + 2 + 0) and writes key_size = 1 in the
    header. *)
Theorem C2_sizes_are_character_counts (native : byteorder) :
  str_encode e_acute = Ok [xc3; xa9]
  /\ str_encode [] = Ok []
  /\ fst <$> encode_kv native 0 e_acute [] = Ok 13
  /\ (encode_kv native 0 e_acute [] ≫= fun r =>
        decode_header native (slice_to HEADER_SIZE r.2))
     = Ok (0, 1, 0).
Proof. destruct native; repeat split; vm_compute; reflexivity. Qed.

(** C3, counterexample: a file of ten bytes is shorter than a header, yet
    the constructor raises on it (the scan is skipped only below 10 bytes);
    on a log cut in the middle of a record it raises struct.error, and on a
    cut log whose first record holds a key that is not UTF-8 it raises
    UnicodeDecodeError: neither is an exception called
    CorruptRecordError. *)
Lemma C3_open_ten_bytes_and_error_name :
  (len ten_bytes < 12
   /\ __init__ LittleEndian (Some ten_bytes) = Some (Raise StructError))
  /\ (12 <= len cut_log
      /\ truncated LittleEndian cut_log
      /\ __init__ LittleEndian (Some cut_log) = Some (Raise StructError)
      /\ exn_name StructError <> "CorruptRecordError"%string)
  /\ (12 <= len bad_text_cut_log
      /\ truncated LittleEndian bad_text_cut_log
      /\ __init__ LittleEndian (Some bad_text_cut_log)
         = Some (Raise UnicodeDecodeError)
      /\ exn_name UnicodeDecodeError <> "CorruptRecordError"%string).
Proof.
  split; [split; [reflexivity | vm_compute; reflexivity]|]. split.
  - split; [vm_compute; discriminate|].
    split; [exact cut_log_truncated|].
    split; [vm_compute; reflexivity | discriminate].
  - split; [vm_compute; discriminate|].
    split; [exact bad_text_cut_log_truncated|].
    split; [vm_compute; reflexivity | discriminate].
Qed.

(** C3, amended: a path that does not exist, and every file shorter than
    10 bytes, opens as a store with an empty index over the file as it is.
    For every file of 12 bytes or more that is cut short (at some scan
    position fewer bytes remain than the header or the declared body
    requires) the constructor raises struct.error or UnicodeDecodeError
    (the scan decodes each record it passes, so it can meet key or value
    bytes that are not UTF-8 before it meets the cut), and no store is
    returned. *)
Theorem C3_open_short_or_truncated (native : byteorder) (data : bytes) :
  __init__ native None = Some (Ok fresh)
  /\ (len data < 10 ->
      exists self,
        __init__ native (Some data) = Some (Ok self)
        /\ key_dir self = ∅
        /\ f_data (file_store self) = data
        /\ f_closed (file_store self) = false)
  /\ (12 <= len data -> truncated native data ->
      exists e,
        __init__ native (Some data) = Some (Raise e)
        /\ (e = StructError \/ e = UnicodeDecodeError)).
Proof.
  split; [reflexivity|]. split.
  - intros H. rewrite init_small by assumption. eauto.
  - intros Hlen Htr. rewrite init_large by lia.
    destruct (scan_truncated native data Htr (Z.to_nat (len data)) 0 data ∅)
      as (e & self & -> & He); [lia | reflexivity | lia |].
    eauto.
Qed.

Lemma C3_open_short_or_truncated_witness :
  (exists self,
     __init__ LittleEndian (Some (replicate 9 x00)) = Some (Ok self)
     /\ key_dir self = ∅
     /\ f_data (file_store self) = replicate 9 x00
     /\ f_closed (file_store self) = false)
  /\ (exists e,
        __init__ LittleEndian (Some cut_log) = Some (Raise e)
        /\ (e = StructError \/ e = UnicodeDecodeError)).
Proof.
  split.
  - apply (C3_open_short_or_truncated LittleEndian (replicate 9 x00)).
    reflexivity.
  - apply (C3_open_short_or_truncated LittleEndian cut_log).
    + vm_compute. discriminate.
    + exact cut_log_truncated.
Defined.

(** C4 (consequence of the defect in [encode_kv]): after
    set("hamlet", "shakespeare1") and set("hamlet", "é") on a fresh store,
    both of which succeed, get("hamlet") raises UnicodeDecodeError instead
    of returning "é"; with "éa" as the second value it returns "é". *)
Theorem C4_last_write_unreadable_outside_ascii (native : byteorder) :
  let hamlet := text "hamlet" in
  let s1 := (set native 1700000000 hamlet (text "shakespeare1") fresh).2 in
  let s2 := (set native 1700000001 hamlet e_acute s1).2 in
  let s2' := (set native 1700000001 hamlet e_acute_a s1).2 in
  __init__ native None = Some (Ok fresh)
  /\ (set native 1700000000 hamlet (text "shakespeare1") fresh).1 = Ok tt
  /\ (set native 1700000001 hamlet e_acute s1).1 = Ok tt
  /\ (get native hamlet s2).1 = Raise UnicodeDecodeError
  /\ (set native 1700000001 hamlet e_acute_a s1).1 = Ok tt
  /\ (get native hamlet s2').1 = Ok e_acute.
Proof. destruct native; repeat split; vm_compute; reflexivity. Qed.

(** C5, counterexample: the answer for a missing key is the empty string,
    which is also the answer for a key whose stored value is the empty
    string. In the store made by [set] of "k" to the empty string on a
    fresh file, "k" is in the index and "missing" is not, and [get] returns
    the same for both. *)
Lemma C5_not_found_is_a_stored_value :
  key_dir store_with_empty_value !! text "missing" = None
  /\ key_dir store_with_empty_value !! text "k" = Some 0
  /\ (get LittleEndian (text "missing") store_with_empty_value).1 = Ok []
  /\ (get LittleEndian (text "k") store_with_empty_value).1
     = (get LittleEndian (text "missing") store_with_empty_value).1.
Proof. repeat split; vm_compute; reflexivity. Qed.

(** C5, amended: for every key absent from the index, on an empty store and
    on a populated one, [get] returns the empty string without raising and
    leaves the store as it was; that answer differs from the answer for any
    key whose [get] returns a non-empty value. *)
Theorem C5_missing_key_gives_empty_string
    (native : byteorder) (key : str) (self : DiskStorage.t) :
  key_dir self !! key = None ->
  get native key self = (Ok [], self)
  /\ forall (key' : str) (v : str),
       (get native key' self).1 = Ok v -> v <> [] ->
       (get native key self).1 <> (get native key' self).1.
Proof.
  intros H. rewrite (get_absent native key self H). split; [reflexivity|].
  intros key' v Hv Hne. rewrite Hv. simpl. congruence.
Qed.

Lemma C5_missing_key_witness :
  get LittleEndian (text "nonexistent") fresh = (Ok [], fresh)
  /\ get LittleEndian (text "missing") store_with_empty_value
     = (Ok [], store_with_empty_value).
Proof.
  split.
  - apply (C5_missing_key_gives_empty_string LittleEndian (text "nonexistent") fresh).
    reflexivity.
  - apply (C5_missing_key_gives_empty_string LittleEndian (text "missing")
             store_with_empty_value).
    vm_compute. reflexivity.
Defined.

(** C6, counterexample: on a closed store, [close] succeeds again and [get]
    of a key that is not in the index returns the empty string; [set] does
    raise, but the exception is ValueError, and no exception of the program
    is called NotOpenError. *)
Lemma C6_closed_store_still_answers :
  f_closed (file_store closed_store) = true
  /\ close closed_store = (Ok tt, closed_store)
  /\ get LittleEndian (text "hamlet") closed_store = (Ok [], closed_store)
  /\ (set LittleEndian 1700000001 (text "hamlet") (text "x") closed_store).1
     = Raise ValueError
  /\ forall e : exn, exn_name e <> "NotOpenError"%string.
Proof.
  repeat split; try (vm_compute; reflexivity).
  intros []; discriminate.
Qed.

(** C6, amended: for every store on which [close] has been called, [set]
    raises ValueError, [get] of a key that is in the index raises
    ValueError, [get] of a key that is not in the index returns the empty
    string, and [close] succeeds again; none of them changes the store. *)
Theorem C6_after_close (native : byteorder) (self0 : DiskStorage.t) :
  let self := (close self0).2 in
  f_closed (file_store self) = true
  /\ (forall now key value,
        set native now key value self = (Raise ValueError, self))
  /\ (forall key, is_Some (key_dir self !! key) ->
        get native key self = (Raise ValueError, self))
  /\ (forall key, key_dir self !! key = None ->
        get native key self = (Ok [], self))
  /\ close self = (Ok tt, self).
Proof.
  simpl. split; [reflexivity|]. split; [|split; [|split]].
  - intros. now apply set_closed.
  - intros key [off Hoff]. now apply get_closed with off.
  - intros key H. now apply get_absent.
  - reflexivity.
Qed.

Lemma C6_after_close_witness :
  get LittleEndian (text "othello") closed_store = (Raise ValueError, closed_store)
  /\ get LittleEndian (text "hamlet") closed_store = (Ok [], closed_store).
Proof.
  pose proof (C6_after_close LittleEndian
    (set LittleEndian 1700000000 (text "othello") (text "shakespeare") fresh).2)
    as (_ & _ & Hin & Hout & _).
  split.
  - apply Hin. exists 0. vm_compute. reflexivity.
  - apply Hout. vm_compute. reflexivity.
Defined.

(** C7 (consequence of the defect in [encode_kv]): after set("éa", "v") on a
    fresh store the index maps "éa" to offset 0, but the record at offset 0
    (the whole file) decodes to the key "é"; after set("é", "v") the record
    the index points to does not decode at all. *)
Theorem C7_index_points_to_other_key (native : byteorder) :
  let s1 := (set native 1700000000 e_acute_a (text "v") fresh).2 in
  let s1' := (set native 1700000000 e_acute (text "v") fresh).2 in
  __init__ native None = Some (Ok fresh)
  /\ (set native 1700000000 e_acute_a (text "v") fresh).1 = Ok tt
  /\ key_dir s1 !! e_acute_a = Some 0
  /\ decode_kv native (slice_from 0 (f_data (file_store s1)))
     = Ok (1700000000, e_acute, text "v")
  /\ e_acute <> e_acute_a
  /\ key_dir s1' !! e_acute = Some 0
  /\ decode_kv native (slice_from 0 (f_data (file_store s1')))
     = Raise UnicodeDecodeError.
Proof. destruct native; repeat split; try discriminate; vm_compute; reflexivity. Qed.

(** C8 (consequence of the defect in [encode_kv]): write the one key "éa"
    with value "v" on a fresh store; get("éa") returns "v". After close and
    a reopen of the file the index holds "é" instead, and get("éa") returns
    the empty string. With the key "é" the reopen itself raises
    UnicodeDecodeError. *)
Theorem C8_reopen_changes_answer_outside_ascii (native : byteorder) :
  let s1 := (set native 1700000000 e_acute_a (text "v") fresh).2 in
  let s1' := (set native 1700000000 e_acute (text "v") fresh).2 in
  __init__ native None = Some (Ok fresh)
  /\ (set native 1700000000 e_acute_a (text "v") fresh).1 = Ok tt
  /\ (get native e_acute_a s1).1 = Ok (text "v")
  /\ (exists s2, reopen native (close s1).2 = Some (Ok s2)
                 /\ (get native e_acute_a s2).1 = Ok []
                 /\ key_dir s2 !! e_acute = Some 0)
  /\ reopen native (close s1').2 = Some (Raise UnicodeDecodeError).
Proof.
  destruct native; (split; [|split; [|split; [|split]]]);
    try (vm_compute; reflexivity);
    (eexists; split; [vm_compute; reflexivity|]);
    split; vm_compute; reflexivity.
Qed.

(** What [set] does keep to: it appends. [encode_kv] produces a record for
    every key and value that can be encoded, at every reading of the clock
    and sizes that fit the header. For every open store and every call of
    [set] whose record [encode_kv] produces (total length [total], bytes
    [rec]), the call succeeds, the file afterwards is the old file followed
    by [rec], so the record starts at the old end-of-file offset [o]; the
    index is the old index with [key] mapped to [o]; and the length of the
    file grows by [total], which is 12 plus the character counts of key and
    value, the sizes the header of the record declares, and is positive.
    After set("othello", "shakespeare") and set("hamlet", "shakespeare") on
    a fresh store, at any times of the clock that fit the header, the
    second record's offset is 12 + len("othello") + len("shakespeare") and
    get("othello") still returns "shakespeare". *)
Lemma set_appends_record (native : byteorder) :
  (forall now key value kb vb,
     str_encode key = Ok kb -> str_encode value = Ok vb ->
     0 <= now < 4294967296 ->
     len key < 4294967296 -> len value < 4294967296 ->
     exists total rec, encode_kv native now key value = Ok (total, rec))
  /\ (forall now key value self total rec,
     f_closed (file_store self) = false ->
     encode_kv native now key value = Ok (total, rec) ->
     let o := len (f_data (file_store self)) in
     let self' := (set native now key value self).2 in
     (set native now key value self).1 = Ok tt
     /\ f_data (file_store self') = f_data (file_store self) ++ rec
     /\ slice_from o (f_data (file_store self')) = rec
     /\ key_dir self' = <[key := o]> (key_dir self)
     /\ key_dir self' !! key = Some o
     /\ len (f_data (file_store self')) = o + total
     /\ o < len (f_data (file_store self'))
     /\ decode_header native (slice_to HEADER_SIZE rec)
        = Ok (now, len key, len value)
     /\ total = 12 + len key + len value)
  /\ (forall now1 now2,
        0 <= now1 < 4294967296 -> 0 <= now2 < 4294967296 ->
        let othello := text "othello" in
        let hamlet := text "hamlet" in
        let shakespeare := text "shakespeare" in
        let s1 := (set native now1 othello shakespeare fresh).2 in
        let s2 := (set native now2 hamlet shakespeare s1).2 in
        (set native now1 othello shakespeare fresh).1 = Ok tt
        /\ (set native now2 hamlet shakespeare s1).1 = Ok tt
        /\ key_dir s2 !! hamlet = Some (12 + len othello + len shakespeare)
        /\ (get native othello s2).1 = Ok shakespeare).
Proof.
  split; [|split; [|apply offset_example]].
  { intros now key value kb vb Ek Ev Hnow Hk Hv.
    destruct (encode_kv_ok native now key value kb vb Ek Ev Hnow Hk Hv)
      as (hd & _ & _ & _ & E).
    eauto. }
  intros now key value self total rec Hopen E o self'. subst o self'.
  rewrite (set_appends _ _ _ _ _ _ _ Hopen E).
  cbn [snd fst file_store key_dir f_data].
  pose proof (encode_kv_inv _ _ _ _ _ _ E) as (Hn & Ln & _).
  pose proof (len_nonneg key). pose proof (len_nonneg value).
  split; [reflexivity|]. split; [reflexivity|].
  split; [apply slice_from_len|]. split; [reflexivity|].
  split; [apply lookup_insert_eq|].
  split; [rewrite len_app; lia|]. split; [rewrite len_app; lia|].
  destruct (encode_kv_fields _ _ _ _ _ _ E)
    as (kf & vf & Dh & _ & _ & _ & Lk & Lv).
  rewrite Lk, Lv in Dh. split; [exact Dh | exact Hn].
Qed.

Lemma set_appends_record_example :
  let s1 := (set LittleEndian 1700000000 (text "othello") (text "shakespeare")
               fresh).2 in
  let s2 := (set LittleEndian 1700000001 (text "hamlet") (text "shakespeare")
               s1).2 in
  (key_dir s1 !! text "othello" = Some 0
   /\ len (f_data (file_store s1)) = 0 + 30)
  /\ (key_dir s2 !! text "hamlet" = Some 30
      /\ (get LittleEndian (text "othello") s2).1 = Ok (text "shakespeare")).
Proof.
  intros s1 s2.
  destruct (set_appends_record LittleEndian) as (Henc & Hset & Hex).
  split.
  - destruct (Henc 1700000000 (text "othello") (text "shakespeare") _ _
                eq_refl eq_refl) as (total & rec & E);
      [vm_compute; split; [discriminate | reflexivity]
      | reflexivity | reflexivity |].
    destruct (Hset 1700000000 (text "othello") (text "shakespeare") fresh
                total rec eq_refl E) as (_ & _ & _ & _ & Hk & Hl & _).
    assert (total = 30) as -> by (vm_compute in E; congruence).
    split; [exact Hk | exact Hl].
  - destruct (Hex 1700000000 1700000001) as (_ & _ & Hk & Hg).
    + vm_compute. split; [discriminate | reflexivity].
    + vm_compute. split; [discriminate | reflexivity].
    + split; [exact Hk | exact Hg].
Defined.

(** C9 (consequence of the defect in [encode_kv]): the file does not grow
    by 12 + key bytes + value bytes. On a fresh store, [set] of the key "é"
    to the empty value succeeds, the record lands at offset 0 and the
    index maps "é" to 0, but the file grows from 0 to 13 bytes, while "é"
    encodes to 2 bytes and the empty value to none: 12 + 2 + 0 is 14. With
    the value "é" under the key "k" the file grows by 14 where the byte
    lengths give 15. The growth is 12 plus the character counts. *)
Theorem C9_growth_counts_characters (native : byteorder) :
  let s1 := (set native 1700000000 e_acute [] fresh).2 in
  let s2 := (set native 1700000000 (text "k") e_acute fresh).2 in
  __init__ native None = Some (Ok fresh)
  /\ len (f_data (file_store fresh)) = 0
  /\ len <$> str_encode e_acute = Ok 2
  /\ len <$> str_encode [] = Ok 0
  /\ len <$> str_encode (text "k") = Ok 1
  /\ (set native 1700000000 e_acute [] fresh).1 = Ok tt
  /\ key_dir s1 !! e_acute = Some 0
  /\ len (f_data (file_store s1)) = 13
  /\ len (f_data (file_store s1)) <> 0 + (12 + 2 + 0)
  /\ (set native 1700000000 (text "k") e_acute fresh).1 = Ok tt
  /\ len (f_data (file_store s2)) = 14
  /\ len (f_data (file_store s2)) <> 0 + (12 + 1 + 2).
Proof.
  destruct native; repeat split; try discriminate; vm_compute; reflexivity.
Qed.

(** C10: [get] is read-only. For every store (open or not) and every key,
    whatever [get] returns or raises, the index is the same map afterwards
    and the file has the same contents, hence the same length; only the
    position of the file object may have moved. *)
Theorem C10_get_read_only (native : byteorder) (key : str) (self : DiskStorage.t) :
  let self' := (get native key self).2 in
  key_dir self' = key_dir self
  /\ f_data (file_store self') = f_data (file_store self)
  /\ len (f_data (file_store self')) = len (f_data (file_store self))
  /\ f_closed (file_store self') = f_closed (file_store self).
Proof.
  destruct (get_frame native key self) as (Hk & Hd & Hc).
  simpl. rewrite Hd. auto.
Qed.

(** * Further lemmas *)

(** ** More on the ["I"] format and the header *)

Lemma byte_of_N_of_byte (b : byte) : byte_of_N (Byte.to_N b) = b.
Proof.
  unfold byte_of_N. pose proof (Byte.to_N_bounded b).
  rewrite N.mod_small by lia. now rewrite Byte.of_to_N.
Qed.

Lemma byte_of_N_eq (n : N) (b : byte) :
  (n mod 256 = Byte.to_N b)%N -> byte_of_N n = b.
Proof.
  intros H. rewrite <- (byte_of_N_of_byte b). unfold byte_of_N.
  rewrite H. pose proof (Byte.to_N_bounded b). now rewrite N.mod_small by lia.
Qed.

Lemma le_value_4 (b0 b1 b2 b3 : byte) :
  0 <= le_value [b0; b1; b2; b3] < 4294967296
  /\ le_bytes (le_value [b0; b1; b2; b3]) = [b0; b1; b2; b3].
Proof.
  pose proof (Byte.to_N_bounded b0). pose proof (Byte.to_N_bounded b1).
  pose proof (Byte.to_N_bounded b2). pose proof (Byte.to_N_bounded b3).
  unfold le_value, le_bytes. cbn [foldr].
  set (v := Z.of_N (Byte.to_N b0) + 256 * (Z.of_N (Byte.to_N b1) + 256 *
            (Z.of_N (Byte.to_N b2) + 256 * (Z.of_N (Byte.to_N b3) + 256 * 0)))).
  assert (0 <= v < 4294967296) as Hv by (subst v; lia).
  split; [exact Hv|].
  repeat f_equal; apply byte_of_N_eq; subst v; n_arith.
Qed.

Lemma unpack_I_4 native (bs : bytes) :
  length bs = 4%nat ->
  0 <= unpack_I native bs < 4294967296
  /\ pack_I native (unpack_I native bs) = Ok bs.
Proof.
  intros L. unfold unpack_I, pack_I.
  assert (length (in_order native bs) = 4%nat) as L'
    by now rewrite length_in_order.
  destruct (in_order native bs) as [|b0 [|b1 [|b2 [|b3 [|]]]]] eqn:E;
    try discriminate L'.
  destruct (le_value_4 b0 b1 b2 b3) as (Hr & Hb). split; [exact Hr|].
  replace ((0 <=? _) && (_ <? 4294967296)) with true
    by (symmetry; apply andb_true_iff; split;
        [apply Z.leb_le | apply Z.ltb_lt]; lia).
  rewrite Hb, <- E. now rewrite in_order_involutive.
Qed.

Lemma pack_I_raise native x e : pack_I native x = Raise e -> e = StructError.
Proof. unfold pack_I. case_match; congruence. Qed.

Lemma struct_pack_III_raise native a b c e :
  struct_pack_III native a b c = Raise e ->
  e = StructError /\ ~ (u32 a /\ u32 b /\ u32 c).
Proof.
  intros H. split.
  - revert H. unfold struct_pack_III.
    destruct (pack_I native a) eqn:Ea; simpl;
      [|intros [= <-]; eapply pack_I_raise, Ea].
    destruct (pack_I native b) eqn:Eb; simpl;
      [|intros [= <-]; eapply pack_I_raise, Eb].
    destruct (pack_I native c) eqn:Ec; simpl;
      [discriminate | intros [= <-]; eapply pack_I_raise, Ec].
  - intros (Ha & Hb & Hc).
    destruct (struct_pack_III_ok native a b c Ha Hb Hc) as (hd & E & _).
    congruence.
Qed.

Lemma struct_unpack_III_12 native (data : bytes) :
  len data = 12 ->
  exists t ks vs,
    struct_unpack_III native data = Ok (t, ks, vs)
    /\ u32 t /\ u32 ks /\ u32 vs
    /\ struct_pack_III native t ks vs = Ok data.
Proof.
  intros L. unfold struct_unpack_III. rewrite L. simpl.
  do 3 eexists. split; [reflexivity|].
  assert (length data = 12%nat) as L' by (unfold len in L; lia).
  do 13 (destruct data as [|? data]; try discriminate L').
  cbn [take drop].
  match goal with
  | |- context [unpack_I native ?x] => destruct (unpack_I_4 native x) as (R1 & P1); [reflexivity|]
  end.
  match goal with
  | |- u32 _ /\ u32 (unpack_I native ?x) /\ _ =>
      destruct (unpack_I_4 native x) as (R2 & P2); [reflexivity|]
  end.
  match goal with
  | |- u32 _ /\ u32 _ /\ u32 (unpack_I native ?x) /\ _ =>
      destruct (unpack_I_4 native x) as (R3 & P3); [reflexivity|]
  end.
  repeat split; try apply R1; try apply R2; try apply R3.
  unfold struct_pack_III. rewrite P1, P2, P3. reflexivity.
Qed.

(** ** More on the codec *)

Lemma utf8_encode_cp_encodable (c : N) :
  (exists b, utf8_encode_cp c = Ok b)
  <-> (c < 0x110000)%N /\ ~ (0xD800 <= c <= 0xDFFF)%N.
Proof.
  unfold utf8_encode_cp.
  destruct (N.ltb_spec c 0x80); [split; [intros _; lia | eauto]|].
  destruct (N.ltb_spec c 0x800); [split; [intros _; lia | eauto]|].
  destruct (N.ltb_spec c 0x10000).
  - destruct (N.leb_spec 0xD800 c), (N.leb_spec c 0xDFFF); simpl;
      (split; [intros [b Hb]; try discriminate; lia | intros; try lia; eauto]).
  - destruct (N.ltb_spec c 0x110000);
      (split; [intros [b Hb]; try discriminate; lia | intros; try lia; eauto]).
Qed.

Lemma utf8_encode_cp_raise (c : N) e :
  utf8_encode_cp c = Raise e -> e = UnicodeEncodeError.
Proof.
  unfold utf8_encode_cp. repeat case_match; congruence.
Qed.

Lemma str_encode_encodable (s : str) :
  (exists b, str_encode s = Ok b) <-> encodable s.
Proof.
  induction s as [|c s IH]; simpl.
  - split; [constructor | eauto].
  - split.
    + intros [b Hb].
      destruct (utf8_encode_cp c) as [bc|] eqn:Ec; [|discriminate].
      destruct (str_encode s) as [bs|] eqn:Es; [|discriminate].
      constructor.
      * apply utf8_encode_cp_encodable. eauto.
      * apply IH. eauto.
    + intros H. inversion H as [|? ? Hc Hs]; subst.
      apply utf8_encode_cp_encodable in Hc as [bc ->].
      apply IH in Hs as [bs ->]. simpl. eauto.
Qed.

Lemma str_encode_raise (s : str) e :
  str_encode s = Raise e -> e = UnicodeEncodeError /\ ~ encodable s.
Proof.
  intros H. split.
  - revert H. induction s as [|c s IH]; simpl; [discriminate|].
    destruct (utf8_encode_cp c) as [bc|] eqn:Ec; simpl;
      [|intros [= <-]; eapply utf8_encode_cp_raise, Ec].
    destruct (str_encode s) as [bs|] eqn:Es; simpl; [discriminate|].
    intros [= <-]. now apply IH.
  - intros [b Hb]%str_encode_encodable. congruence.
Qed.

(** When [encode_kv] returns and when it raises, and what. *)
Lemma encode_kv_cases native (timestamp : Z) (key value : str) :
  match encode_kv native timestamp key value with
  | Ok _ =>
      encodable key /\ encodable value
      /\ u32 timestamp /\ u32 (len key) /\ u32 (len value)
  | Raise e =>
      (e = UnicodeEncodeError /\ ~ (encodable key /\ encodable value))
      \/ (e = StructError /\ encodable key /\ encodable value
          /\ ~ (u32 timestamp /\ u32 (len key) /\ u32 (len value)))
  end.
Proof.
  unfold encode_kv, encode_header.
  destruct (str_encode key) as [kb|e] eqn:Ek; simpl.
  2: { left. apply str_encode_raise in Ek as (-> & Hk). tauto. }
  destruct (str_encode value) as [vb|e] eqn:Ev; simpl.
  2: { left. apply str_encode_raise in Ev as (-> & Hv). tauto. }
  assert (encodable key) by (apply str_encode_encodable; eauto).
  assert (encodable value) by (apply str_encode_encodable; eauto).
  destruct (struct_pack_III native timestamp (len key) (len value))
    as [hd|e] eqn:Eh; simpl.
  - apply struct_pack_III_inv in Eh as (? & ? & ? & _). unfold u32. tauto.
  - right. apply struct_pack_III_raise in Eh as (-> & ?). tauto.
Qed.

(** The frame of a record: however the text decodes, [decode_kv] finds
    the header and the two fields of what [encode_kv] returned. *)
Lemma decode_kv_encoded native timestamp key value n data :
  encode_kv native timestamp key value = Ok (n, data) ->
  (exists k v, decode_kv native data = Ok (timestamp, k, v))
  \/ decode_kv native data = Raise UnicodeDecodeError.
Proof.
  intros E.
  destruct (encode_kv_fields _ _ _ _ _ _ E) as (kf & vf & Dh & Du & _).
  unfold decode_kv. rewrite Dh. simpl. rewrite Du. simpl.
  destruct (bytes_decode kf) as [k|e] eqn:Ek; simpl.
  2: { right. apply bytes_decode_raise in Ek as ->. reflexivity. }
  destruct (bytes_decode vf) as [v|e] eqn:Ev; simpl.
  2: { right. apply bytes_decode_raise in Ev as ->. reflexivity. }
  left. eauto.
Qed.

Lemma decode_kv_short native (data : bytes) :
  len data < HEADER_SIZE -> decode_kv native data = Raise StructError.
Proof.
  intros H. unfold decode_kv, decode_header, struct_unpack_III.
  pose proof (len_nonneg data).
  rewrite len_slice_to by (unfold HEADER_SIZE; lia).
  replace (_ =? 12) with false; [reflexivity|].
  symmetry. apply Z.eqb_neq. unfold HEADER_SIZE in *. lia.
Qed.

Lemma decode_kv_wrong_length native (data : bytes) t ks vs :
  decode_header native (slice_to HEADER_SIZE data) = Ok (t, ks, vs) ->
  len data <> HEADER_SIZE + ks + vs ->
  decode_kv native data = Raise StructError.
Proof.
  intros Eh H. unfold decode_kv. rewrite Eh. simpl. unfold struct_unpack_ss.
  pose proof (decode_header_inv _ _ _ _ _ Eh) as (Lh & _).
  rewrite len_slice_to in Lh by (unfold HEADER_SIZE; lia).
  rewrite len_slice_from by (unfold HEADER_SIZE; lia).
  replace (_ =? ks + vs) with false; [reflexivity|].
  symmetry. apply Z.eqb_neq. unfold HEADER_SIZE in *. lia.
Qed.

(** ** Records and [decode_kv] *)

Lemma slice_to_slice_to {A} (n m : Z) (l : list A) :
  n <= m -> slice_to n (slice_to m l) = slice_to n l.
Proof.
  intros H. unfold slice_to. rewrite take_take. f_equal. lia.
Qed.

Lemma slice_from_slice_to {A} (n m : Z) (l : list A) :
  0 <= n -> 0 <= m ->
  slice_from n (slice_to (n + m) l) = slice_to m (slice_from n l).
Proof.
  intros Hn Hm. unfold slice_from, slice_to.
  rewrite take_drop_commute. do 2 f_equal. lia.
Qed.

Lemma slice_to_split {A} (n m : Z) (l : list A) :
  0 <= n -> 0 <= m ->
  slice_to (n + m) l = slice_to n l ++ slice_to m (slice_from n l).
Proof.
  intros Hn Hm. unfold slice_to, slice_from.
  rewrite Z2Nat.inj_add by lia.
  rewrite <- (take_drop (Z.to_nat n) l) at 1.
  rewrite take_app. rewrite take_take.
  rewrite length_take.
  destruct (decide (Z.to_nat n <= length l)%nat).
  - replace (Z.to_nat n `min` (Z.to_nat n + Z.to_nat m))%nat with (Z.to_nat n) by lia.
    repeat f_equal; lia.
  - rewrite !drop_ge by lia. rewrite !take_nil, !app_nil_r.
    rewrite !take_ge by lia. reflexivity.
Qed.

(** A record parses at the head of [rest] exactly when [decode_kv] accepts
    a prefix of [rest]; the prefix is the record. *)
Lemma parse_record_decode native (rest : bytes) t k v sz :
  parse_record native rest = Ok (t, k, v, sz)
  <-> 0 <= sz <= len rest /\ decode_kv native (slice_to sz rest) = Ok (t, k, v).
Proof.
  split.
  - intros H. pose proof (parse_record_inv _ _ _ _ _ _ H) as Hsz.
    split; [lia|]. revert H. unfold parse_record.
    destruct (decode_header native (slice_to HEADER_SIZE rest))
      as [[[t' ks] vs]|] eqn:Eh; [|discriminate].
    simpl.
    destruct (decode_kv native _) as [[[t'' k'] v']|] eqn:Ed; [|discriminate].
    simpl. intros [= <- <- <- <-].
    pose proof (decode_header_inv _ _ _ _ _ Eh) as (_ & _ & Hk & Hv).
    rewrite <- Z.add_assoc, slice_to_split by (unfold HEADER_SIZE; lia).
    exact Ed.
  - intros (Hsz & Hd). unfold parse_record.
    apply decode_kv_inv in Hd as Hi. destruct Hi as (ks & vs & Eh & Ld & _).
    pose proof (decode_header_inv _ _ _ _ _ Eh) as (_ & _ & Hk & Hv).
    rewrite len_slice_to in Ld by lia.
    assert (sz = HEADER_SIZE + (ks + vs)) as -> by lia.
    rewrite slice_to_slice_to in Eh by (unfold HEADER_SIZE; lia).
    rewrite Eh. simpl.
    rewrite slice_to_split in Hd by (unfold HEADER_SIZE; lia).
    rewrite Hd. simpl. now rewrite Z.add_assoc.
Qed.

(** With the whole frame in [rest], what follows it does not matter. *)
Lemma parse_record_framed native (rest extra : bytes) t ks vs :
  decode_header native (slice_to HEADER_SIZE rest) = Ok (t, ks, vs) ->
  HEADER_SIZE + ks + vs <= len rest ->
  parse_record native (rest ++ extra) = parse_record native rest
  /\ forall e, parse_record native rest = Raise e -> e = UnicodeDecodeError.
Proof.
  intros Eh Hlen.
  pose proof (decode_header_inv _ _ _ _ _ Eh) as (Lh & _ & Hk & Hv).
  split.
  - unfold parse_record.
    rewrite (slice_to_app_le HEADER_SIZE), (slice_from_app_le HEADER_SIZE)
      by (unfold HEADER_SIZE in *; lia).
    rewrite Eh. simpl. rewrite slice_to_app_le; [reflexivity|].
    rewrite len_slice_from by (unfold HEADER_SIZE; lia).
    unfold HEADER_SIZE in *. lia.
  - intros e. unfold parse_record. rewrite Eh. simpl.
    destruct (decode_kv native _) as [[[? ?] ?]|e'] eqn:Ed; simpl;
      [discriminate|].
    intros [= <-]. revert Ed. unfold decode_kv.
    rewrite slice_to_app_header, slice_from_app_header by exact Lh.
    rewrite Eh. simpl. unfold struct_unpack_ss.
    rewrite len_slice_to, len_slice_from by (unfold HEADER_SIZE; lia).
    replace (_ =? ks + vs) with true
      by (symmetry; apply Z.eqb_eq; unfold HEADER_SIZE in *; lia).
    simpl.
    repeat match goal with
           | |- context [bytes_decode ?x] =>
               let E := fresh "E" in destruct (bytes_decode x) eqn:E; simpl
           end;
      try discriminate;
      intros [= <-]; eapply bytes_decode_raise; eassumption.
Qed.

(** ** [get] through [parse_record] *)

Lemma get_unparsed native key data pos kd off e :
  kd !! key = Some off -> 0 <= off ->
  parse_record native (slice_from off data) = Raise e ->
  (get native key (mk (mk_file data pos false) kd)).1 = Raise e.
Proof.
  intros Hk Hoff. unfold get, parse_record. simpl. rewrite Hk. unfold_M.
  replace (off <? 0) with false by (symmetry; apply Z.ltb_ge; lia).
  simpl.
  destruct (decode_header native (slice_to HEADER_SIZE (slice_from off data)))
    as [[[t' k_sz] v_sz]|] eqn:Eh; simpl; [|congruence].
  pose proof (decode_header_inv _ _ _ _ _ Eh) as (Lh & _ & Hks & Hvs).
  replace (off + HEADER_SIZE <? 0) with false
    by (symmetry; apply Z.ltb_ge; unfold HEADER_SIZE; lia).
  simpl.
  replace (k_sz + v_sz <? 0) with false by (symmetry; apply Z.ltb_ge; lia).
  rewrite (slice_from_add off HEADER_SIZE) by (unfold HEADER_SIZE; lia).
  destruct (decode_kv native _) as [[[t'' k'] v']|] eqn:Ed; simpl;
    [discriminate | congruence].
Qed.

(** The answer of [get] on an open store, read off the index and the
    record at the offset. *)
Lemma get_answer native key (self : DiskStorage.t) :
  f_closed (file_store self) = false ->
  (forall off, key_dir self !! key = Some off -> 0 <= off) ->
  (get native key self).1
  = match key_dir self !! key with
    | None => Ok []
    | Some off =>
        match parse_record native (slice_from off (f_data (file_store self))) with
        | Ok (_, _, v, _) => Ok v
        | Raise e => Raise e
        end
    end.
Proof.
  destruct self as [[data pos closed] kd]. simpl. intros -> Hoff.
  destruct (kd !! key) as [off|] eqn:Hk.
  - specialize (Hoff off eq_refl).
    destruct (parse_record native (slice_from off data))
      as [[[[t k] v] sz]|e] eqn:Ep.
    + now rewrite (get_parsed _ _ _ _ _ _ _ _ _ _ Hk Hoff Ep).
    + now apply get_unparsed with off.
  - unfold get. simpl. now rewrite Hk.
Qed.

(** [set] does not look at the position of the file object. *)
Lemma set_any_position native now key value data (p1 p2 : Z) closed kd :
  (set native now key value (mk (mk_file data p1 closed) kd)).1
  = (set native now key value (mk (mk_file data p2 closed) kd)).1
  /\ (closed = false ->
      set native now key value (mk (mk_file data p1 closed) kd)
      = set native now key value (mk (mk_file data p2 closed) kd)).
Proof.
  destruct closed; [split; [reflexivity | discriminate]|].
  destruct (encode_kv native now key value) as [[n rec]|e] eqn:E.
  - rewrite !(set_encoded _ _ _ _ _ _ _ _ _ E). auto.
  - rewrite !(set_not_encoded _ _ _ _ _ _ _ _ E). auto.
Qed.

(** ** The frames the index points to *)

Lemma index_ok_framed native (self : DiskStorage.t) :
  index_ok native self -> framed native self.
Proof.
  intros Hok k off Hk. destruct (Hok k off Hk) as (Hoff & t & v & sz & Hp).
  split; [exact Hoff|].
  pose proof (parse_record_inv _ _ _ _ _ _ Hp) as Hsz.
  rewrite len_slice_from in Hsz by assumption.
  revert Hp. unfold parse_record.
  destruct (decode_header native _) as [[[t' ks] vs]|] eqn:Eh; [|discriminate].
  simpl. destruct (decode_kv native _) as [[[? ?] ?]|]; [|discriminate].
  simpl. intros [= _ _ _ <-]. exists t', ks, vs. split; [reflexivity|]. lia.
Qed.

Lemma framed_get native key (self : DiskStorage.t) :
  framed native self -> framed native (get native key self).2.
Proof.
  intros Hf k off. destruct (get_frame native key self) as (-> & -> & _).
  apply Hf.
Qed.

Lemma framed_set native now key value (self : DiskStorage.t) :
  framed native self -> framed native (set native now key value self).2.
Proof.
  intros Hf. destruct self as [[data pos closed] kd].
  destruct closed; [now rewrite set_closed|].
  destruct (encode_kv native now key value) as [[n rec]|e] eqn:E.
  2: { rewrite (set_not_encoded _ _ _ _ _ _ _ _ E). exact Hf. }
  rewrite (set_encoded _ _ _ _ _ _ _ _ _ E). intros k off. simpl.
  rewrite lookup_insert. destruct (decide (key = k)) as [<-|Hne].
  - intros [= <-]. split; [apply len_nonneg|].
    destruct (encode_kv_fields _ _ _ _ _ _ E) as (kf & vf & Dh & _ & Hr & Ht & _).
    pose proof (encode_kv_inv _ _ _ _ _ _ E) as (_ & Ln & _).
    pose proof (decode_header_inv _ _ _ _ _ Dh) as (Lh & _).
    rewrite len_slice_to in Lh by (unfold HEADER_SIZE; lia).
    exists now, (len kf), (len vf).
    rewrite slice_from_len, len_app, Ln. split; [exact Dh|].
    unfold HEADER_SIZE. lia.
  - intros Hk. destruct (Hf k off Hk) as (Hoff & t & ks & vs & Dh & Hlen).
    simpl in *. split; [exact Hoff|]. exists t, ks, vs.
    pose proof (decode_header_inv _ _ _ _ _ Dh) as (_ & _ & Hks & Hvs).
    rewrite slice_from_app_le by (unfold HEADER_SIZE in *; lia).
    rewrite slice_to_app_le
      by (rewrite len_slice_from by assumption; unfold HEADER_SIZE in *; lia).
    split; [exact Dh|]. rewrite len_app. pose proof (len_nonneg rec). lia.
Qed.

Lemma open_get native key (self : DiskStorage.t) :
  f_closed (file_store (get native key self).2) = f_closed (file_store self).
Proof. apply get_frame. Qed.

Lemma open_set native now key value (self : DiskStorage.t) :
  f_closed (file_store (set native now key value self).2)
  = f_closed (file_store self).
Proof.
  destruct self as [[data pos closed] kd].
  destruct closed; [now rewrite set_closed|].
  destruct (encode_kv native now key value) as [[n rec]|e] eqn:E.
  - now rewrite (set_encoded _ _ _ _ _ _ _ _ _ E).
  - now rewrite (set_not_encoded _ _ _ _ _ _ _ _ E).
Qed.

Lemma run_ops_framed native (ops : list op) (self : DiskStorage.t) :
  framed native self ->
  framed native (run_ops native ops self)
  /\ f_closed (file_store (run_ops native ops self))
     = f_closed (file_store self).
Proof.
  revert self. induction ops as [|o ops IH]; intros self Hf; [auto|].
  unfold run_ops in *. cbn [foldl].
  destruct o as [now key value|key]; cbn [run_op].
  - destruct (IH _ (framed_set native now key value self Hf)) as (? & ->).
    split; [assumption | apply open_set].
  - destruct (IH _ (framed_get native key self Hf)) as (? & ->).
    split; [assumption | apply open_get].
Qed.

(** On an open store whose index points to whole frames, [get] returns a
    string or meets text that is not UTF-8. *)
Lemma get_framed native key (self : DiskStorage.t) :
  framed native self -> f_closed (file_store self) = false ->
  (exists v, (get native key self).1 = Ok v)
  \/ (get native key self).1 = Raise UnicodeDecodeError.
Proof.
  intros Hf Hopen. rewrite get_answer; [|exact Hopen|].
  2: { intros off Hk. now destruct (Hf key off Hk). }
  destruct (key_dir self !! key) as [off|] eqn:Hk; [|eauto].
  destruct (Hf key off Hk) as (Hoff & t & ks & vs & Dh & Hlen).
  destruct (parse_record native _) as [[[[? ?] v] ?]|e] eqn:Ep; [eauto|].
  right. f_equal.
  eapply (proj2 (parse_record_framed native _ [] _ _ _ Dh _)), Ep.
  Unshelve. rewrite len_slice_from by assumption. lia.
Qed.

(** A [set] leaves the answer for every other key as it was. *)
Lemma get_other_key native now key value key' (self : DiskStorage.t) :
  framed native self -> key' <> key ->
  (get native key' (set native now key value self).2).1
  = (get native key' self).1.
Proof.
  intros Hf Hne. destruct self as [[data pos closed] kd].
  destruct closed; [now rewrite set_closed|].
  destruct (encode_kv native now key value) as [[n rec]|e] eqn:E.
  2: { rewrite (set_not_encoded _ _ _ _ _ _ _ _ E). apply get_any_position. }
  rewrite (set_encoded _ _ _ _ _ _ _ _ _ E).
  rewrite !get_answer; simpl; try reflexivity.
  - rewrite lookup_insert_ne by congruence.
    destruct (kd !! key') as [off|] eqn:Hk; [|reflexivity].
    destruct (Hf key' off Hk) as (Hoff & t & ks & vs & Dh & Hlen). simpl in *.
    pose proof (decode_header_inv _ _ _ _ _ Dh) as (_ & _ & Hks & Hvs).
    rewrite slice_from_app_le by (unfold HEADER_SIZE in *; lia).
    rewrite (proj1 (parse_record_framed native _ rec _ _ _ Dh
                      ltac:(rewrite len_slice_from by assumption; lia))).
    reflexivity.
  - intros off Hk. now destruct (Hf key' off Hk).
  - intros off. rewrite lookup_insert_ne by congruence.
    intros Hk. now destruct (Hf key' off Hk).
Qed.

(** ** Any run of [set] and [get] only appends *)

Lemma set_grows native now key value (self : DiskStorage.t) :
  (exists tail,
     f_data (file_store (set native now key value self).2)
     = f_data (file_store self) ++ tail)
  /\ forall k, is_Some (key_dir self !! k) ->
       is_Some (key_dir (set native now key value self).2 !! k).
Proof.
  destruct self as [[data pos closed] kd].
  destruct closed.
  { rewrite set_closed by reflexivity. split; [exists []; apply eq_sym, app_nil_r | auto]. }
  destruct (encode_kv native now key value) as [[n rec]|e] eqn:E.
  - rewrite (set_encoded _ _ _ _ _ _ _ _ _ E). simpl. split; [eauto|].
    intros k Hk. rewrite lookup_insert. case_decide; eauto.
  - rewrite (set_not_encoded _ _ _ _ _ _ _ _ E). simpl.
    split; [exists []; apply eq_sym, app_nil_r | auto].
Qed.

Lemma run_ops_grows native (ops : list op) (self : DiskStorage.t) :
  (exists tail,
     f_data (file_store (run_ops native ops self))
     = f_data (file_store self) ++ tail)
  /\ (forall k, is_Some (key_dir self !! k) ->
        is_Some (key_dir (run_ops native ops self) !! k))
  /\ f_closed (file_store (run_ops native ops self))
     = f_closed (file_store self).
Proof.
  revert self. induction ops as [|o ops IH]; intros self.
  - split; [exists []; apply eq_sym, app_nil_r | auto].
  - unfold run_ops in *. cbn [foldl].
    destruct (IH (run_op native self o)) as ([tail Ht] & Hk & Hc).
    rewrite Ht, Hc. destruct o as [now key value|key]; cbn [run_op] in *.
    + destruct (set_grows native now key value self) as ([tail' ->] & Hk').
      rewrite <- app_assoc. split; [eauto|]. split; [auto | apply open_set].
    + destruct (get_frame native key self) as (Hkd & -> & ->).
      rewrite Hkd in Hk. split; [eauto|]. split; [auto | reflexivity].
Qed.

(** ** More on the scan *)

(** More iterations than the scan needs change nothing. *)
Lemma init_db_loop_more_fuel native (fuel1 fuel2 : nat) (total cur : Z) data kd :
  0 <= cur ->
  total - cur <= Z.of_nat fuel1 -> total - cur <= Z.of_nat fuel2 ->
  init_db_loop native fuel1 total cur (mk (mk_file data cur false) kd)
  = init_db_loop native fuel2 total cur (mk (mk_file data cur false) kd).
Proof.
  revert fuel2 cur kd. induction fuel1 as [|fuel1 IH]; intros fuel2 cur kd Hcur H1 H2.
  - destruct fuel2; cbn [init_db_loop];
      replace (cur <? total) with false by (symmetry; apply Z.ltb_ge; lia);
      reflexivity.
  - cbn [init_db_loop]. destruct (cur <? total) eqn:Hlt.
    2: { destruct fuel2; cbn [init_db_loop]; now rewrite Hlt. }
    apply Z.ltb_lt in Hlt. destruct fuel2 as [|fuel2]; [lia|].
    cbn [init_db_loop]. apply Z.ltb_lt in Hlt. rewrite Hlt.
    destruct (parse_record native (slice_from cur data))
      as [[[[t k] v] sz]|e] eqn:Ep.
    + rewrite (init_db_body_parsed _ _ _ _ _ _ _ _ _ Hcur Hcur Ep).
      apply parse_record_inv in Ep. apply IH; lia.
    + destruct (init_db_body_failed _ cur _ _ kd _ Hcur Ep) as (pos' & ->).
      reflexivity.
Qed.

Lemma slice_from_nil_iff {A} (n : Z) (l : list A) :
  0 <= n -> (slice_from n l = [] <-> len l <= n).
Proof.
  intros Hn. unfold slice_from, len. split.
  - intros H. apply (f_equal length) in H. rewrite length_drop in H.
    simpl in H. lia.
  - intros H. apply drop_ge. lia.
Qed.

(** The scan from a position reaches the end of the file exactly when the
    rest of the file is a well-formed log. *)
Lemma scan_well_formed native (rest : bytes) :
  well_formed_log native rest ->
  forall (fuel : nat) (cur : Z) data kd,
    0 <= cur -> slice_from cur data = rest ->
    len data - cur <= Z.of_nat fuel ->
    exists self,
      init_db_loop native fuel (len data) cur (mk (mk_file data cur false) kd)
      = Some (Ok tt, self)
      /\ f_data (file_store self) = data
      /\ f_pos (file_store self) = Z.max cur (len data)
      /\ f_closed (file_store self) = false.
Proof.
  induction 1 as [|rest t k v sz Hsz Hd Hwf IH];
    intros fuel cur data kd Hcur Hrest Hfuel.
  - apply slice_from_nil_iff in Hrest; [|exact Hcur].
    exists (mk (mk_file data cur false) kd).
    replace (Z.max cur (len data)) with cur by lia.
    destruct fuel; cbn [init_db_loop];
      replace (cur <? len data) with false by (symmetry; apply Z.ltb_ge; lia);
      auto.
  - assert (parse_record native rest = Ok (t, k, v, sz)) as Hp
      by now apply parse_record_decode.
    pose proof (parse_record_inv _ _ _ _ _ _ Hp) as Hsz'.
    assert (cur + sz <= len data) as Hin.
    { rewrite <- Hrest, len_slice_from in Hsz' by assumption. lia. }
    destruct fuel as [|fuel]; [lia|]. cbn [init_db_loop].
    replace (cur <? len data) with true by (symmetry; apply Z.ltb_lt; lia).
    rewrite <- Hrest in Hp.
    rewrite (init_db_body_parsed _ _ _ _ _ _ _ _ _ Hcur Hcur Hp).
    destruct (IH fuel (cur + sz) data (<[k := cur]> kd)) as (self & -> & ? & Hpos & ?);
      [lia | rewrite slice_from_add by lia; now rewrite Hrest | lia |].
    exists self. repeat split; try assumption. lia.
Qed.

Lemma scan_ok_well_formed native (fuel : nat) (cur : Z) data kd self :
  0 <= cur ->
  init_db_loop native fuel (len data) cur (mk (mk_file data cur false) kd)
  = Some (Ok tt, self) ->
  well_formed_log native (slice_from cur data).
Proof.
  revert cur kd. induction fuel as [|fuel IH]; intros cur kd Hcur;
    cbn [init_db_loop]; destruct (cur <? len data) eqn:Hlt; try discriminate.
  - intros _. apply Z.ltb_ge in Hlt.
    rewrite (proj2 (slice_from_nil_iff cur data Hcur) Hlt). constructor.
  - destruct (parse_record native (slice_from cur data))
      as [[[[t k] v] sz]|e] eqn:Ep.
    + rewrite (init_db_body_parsed _ _ _ _ _ _ _ _ _ Hcur Hcur Ep).
      pose proof (parse_record_inv _ _ _ _ _ _ Ep) as Hsz.
      intros H. apply IH in H; [|lia].
      apply parse_record_decode in Ep as (Hsz' & Hd).
      econstructor; [exact Hsz' | exact Hd |].
      now rewrite <- slice_from_add by lia.
    + destruct (init_db_body_failed _ cur _ _ kd _ Hcur Ep) as (pos' & ->).
      discriminate.
  - intros _. apply Z.ltb_ge in Hlt.
    rewrite (proj2 (slice_from_nil_iff cur data Hcur) Hlt). constructor.
Qed.

Lemma init_ok_iff native (data : bytes) :
  10 <= len data ->
  (exists self, __init__ native (Some data) = Some (Ok self))
  <-> well_formed_log native data.
Proof.
  intros Hlen. rewrite init_large by assumption. split.
  - intros [self H].
    destruct (init_db_loop native _ _ _ _) as [[[[]|e] s]|] eqn:El;
      try discriminate.
    apply scan_ok_well_formed in El; [|lia]. exact El.
  - intros Hwf.
    destruct (scan_well_formed native data Hwf (Z.to_nat (len data)) 0 data ∅)
      as (self & -> & _); [lia | reflexivity | lia |].
    eauto.
Qed.

Lemma init_ok_file native (on_disk : option bytes) self :
  __init__ native on_disk = Some (Ok self) ->
  f_data (file_store self) = default [] on_disk
  /\ f_pos (file_store self) = len (default [] on_disk)
  /\ f_closed (file_store self) = false.
Proof.
  destruct on_disk as [data|]; [|rewrite init_fresh; intros [= <-]; auto].
  destruct (Z.lt_ge_cases (len data) 10) as [H|H].
  - rewrite init_small by assumption. intros [= <-]. auto.
  - intros Hi. assert (well_formed_log native data) as Hwf
      by (apply init_ok_iff; eauto).
    revert Hi. rewrite init_large by assumption.
    destruct (scan_well_formed native data Hwf (Z.to_nat (len data)) 0 data ∅)
      as (s & -> & Hd & Hp & Hc); [lia | reflexivity | lia |].
    intros [= <-]. simpl. split; [exact Hd|]. split; [|exact Hc].
    rewrite Hp. lia.
Qed.

Lemma init_ten_or_eleven native (data : bytes) :
  10 <= len data < 12 ->
  __init__ native (Some data) = Some (Raise StructError).
Proof.
  intros H. rewrite init_large by lia.
  destruct (Z.to_nat (len data)) as [|fuel] eqn:Ef; [lia|].
  cbn [init_db_loop].
  replace (0 <? len data) with true by (symmetry; apply Z.ltb_lt; lia).
  destruct (init_db_body_failed native 0 data 0 ∅ StructError) as (pos' & ->);
    [lia | | reflexivity].
  apply parse_record_short_header. rewrite slice_from_0.
  unfold HEADER_SIZE. lia.
Qed.

(** ** The store as a map, on ASCII text *)

Lemma ascii_call_encoded native now key value :
  ascii_call (now, key, value) ->
  exists rec, encode_kv native now key value
              = Ok (12 + len key + len value, rec).
Proof. intros C. destruct (encode_kv_ascii native _ _ _ C) as (rec & E & _). eauto. Qed.

Lemma run_sets_answers native (calls : list (Z * str * str)) :
  Forall ascii_call calls ->
  forall (self : DiskStorage.t) (key : str),
    framed native self -> f_closed (file_store self) = false ->
    (get native key (run_sets native calls self)).1
    = match last_set calls key with
      | Some v => Ok v
      | None => (get native key self).1
      end.
Proof.
  induction 1 as [|[[now k] v] calls C _ IH]; intros self key Hf Hopen;
    [reflexivity|].
  unfold run_sets in *. cbn [foldl last_set].
  rewrite IH; [| now apply framed_set | now rewrite open_set].
  destruct (last_set calls key) as [v'|]; [reflexivity|].
  destruct (decide (k = key)) as [<-|Hne].
  - destruct (ascii_call_encoded native _ _ _ C) as (rec & E).
    destruct C as (Ak & Av & _).
    now apply (get_after_set _ _ _ _ _ _ _ Hopen Ak Av E).
  - apply get_other_key; [exact Hf | congruence].
Qed.

(** * Further properties of the code *)

(** X1: header round trip. For three values that fit 32 unsigned bits,
    [encode_header] returns 12 bytes and [decode_header] gives the three
    values back from them. *)
Theorem X1_header_roundtrip (native : byteorder) (timestamp key_size value_size : Z) :
  u32 timestamp -> u32 key_size -> u32 value_size ->
  exists hd,
    encode_header native timestamp key_size value_size = Ok hd
    /\ len hd = HEADER_SIZE
    /\ decode_header native hd = Ok (timestamp, key_size, value_size).
Proof.
  intros Ht Hk Hv.
  destruct (struct_pack_III_ok native _ _ _ Ht Hk Hv) as (hd & E & L & D).
  exists hd. unfold len. rewrite L. auto.
Qed.

Lemma X1_header_roundtrip_witness :
  exists hd,
    encode_header BigEndian 1700000000 7 11 = Ok hd
    /\ len hd = HEADER_SIZE
    /\ decode_header BigEndian hd = Ok (1700000000, 7, 11).
Proof.
  apply (X1_header_roundtrip BigEndian 1700000000 7 11);
    unfold u32; lia.
Defined.

(** X2: [encode_header] returns, and then 12 bytes, exactly when the three
    values fit 32 unsigned bits; otherwise it raises struct.error, and
    nothing else. *)
Theorem X2_encode_header_range (native : byteorder) (timestamp key_size value_size : Z) :
  match encode_header native timestamp key_size value_size with
  | Ok hd =>
      u32 timestamp /\ u32 key_size /\ u32 value_size /\ len hd = HEADER_SIZE
  | Raise e =>
      e = StructError /\ ~ (u32 timestamp /\ u32 key_size /\ u32 value_size)
  end.
Proof.
  unfold encode_header.
  destruct (struct_pack_III native timestamp key_size value_size)
    as [hd|e] eqn:E.
  - apply struct_pack_III_inv in E as (? & ? & ? & L).
    unfold u32, len. rewrite L. auto.
  - now apply struct_pack_III_raise in E.
Qed.

(** X3: [decode_header] accepts exactly the buffers of 12 bytes (any other
    length raises struct.error); the three values it returns fit 32
    unsigned bits, and [encode_header] makes the same 12 bytes of them. *)
Theorem X3_decode_header_total_on_12_bytes (native : byteorder) (data : bytes) :
  match decode_header native data with
  | Ok (timestamp, key_size, value_size) =>
      len data = HEADER_SIZE
      /\ u32 timestamp /\ u32 key_size /\ u32 value_size
      /\ encode_header native timestamp key_size value_size = Ok data
  | Raise e => e = StructError /\ len data <> HEADER_SIZE
  end.
Proof.
  unfold decode_header, encode_header.
  destruct (Z.eq_dec (len data) 12) as [L|L].
  - destruct (struct_unpack_III_12 native data L)
      as (t & ks & vs & -> & ? & ? & ? & ?). auto.
  - unfold struct_unpack_III. apply Z.eqb_neq in L as L'. rewrite L'. auto.
Qed.

(** X4: what [encode_kv] returns is always a whole frame. The length it
    reports is the length of the bytes, 12 plus the character counts of
    key and value; the first 12 bytes decode to the timestamp and the two
    counts; and [decode_kv] on the bytes never raises struct.error: it
    returns a triple with the timestamp, or meets a field that is not
    UTF-8. *)
Theorem X4_encode_kv_frame (native : byteorder) (timestamp : Z) (key value : str)
    (n : Z) (data : bytes) :
  encode_kv native timestamp key value = Ok (n, data) ->
  n = len data
  /\ n = HEADER_SIZE + len key + len value
  /\ decode_header native (slice_to HEADER_SIZE data)
     = Ok (timestamp, len key, len value)
  /\ ((exists k v, decode_kv native data = Ok (timestamp, k, v))
      \/ decode_kv native data = Raise UnicodeDecodeError).
Proof.
  intros E. pose proof (encode_kv_inv _ _ _ _ _ _ E) as (Hn & Ln & _).
  destruct (encode_kv_fields _ _ _ _ _ _ E) as (kf & vf & Dh & _ & _ & _ & Lk & Lv).
  rewrite Lk, Lv in Dh.
  repeat split; [congruence | exact Hn | exact Dh |].
  eapply decode_kv_encoded, E.
Qed.

Lemma X4_encode_kv_frame_witness :
  13 = len (take 13 (replicate 4 x00 ++ [x01] ++ replicate 7 x00 ++ [xc3]))
  /\ decode_kv LittleEndian
       (replicate 4 x00 ++ [x01] ++ replicate 7 x00 ++ [xc3])
     = Raise UnicodeDecodeError.
Proof.
  destruct (X4_encode_kv_frame LittleEndian 0 e_acute [] 13
              (replicate 4 x00 ++ [x01] ++ replicate 7 x00 ++ [xc3]))
    as (Hn & _ & _ & [(k & v & Hd)|Hd]).
  - reflexivity.
  - discriminate Hd.
  - split; [reflexivity | exact Hd].
Defined.

(** X5: when [encode_kv] returns and what it raises. It returns exactly
    when key and value can be encoded and the timestamp and both character
    counts fit 32 unsigned bits. Text that cannot be encoded raises
    UnicodeEncodeError; encodable text with a value out of range raises
    struct.error. *)
Theorem X5_encode_kv_cases (native : byteorder) (timestamp : Z) (key value : str) :
  match encode_kv native timestamp key value with
  | Ok (n, data) =>
      encodable key /\ encodable value
      /\ u32 timestamp /\ u32 (len key) /\ u32 (len value)
  | Raise e =>
      (e = UnicodeEncodeError /\ ~ (encodable key /\ encodable value))
      \/ (e = StructError /\ encodable key /\ encodable value
          /\ ~ (u32 timestamp /\ u32 (len key) /\ u32 (len value)))
  end.
Proof.
  pose proof (encode_kv_cases native timestamp key value) as H.
  destruct (encode_kv native timestamp key value) as [[n data]|e]; exact H.
Qed.

(** X6: the fields [encode_kv] writes are the first [len(key)] bytes of
    the encoded key and the first [len(value)] bytes of the encoded value
    (no more, even when the encoding is longer), after the header of the
    timestamp and the two counts. *)
Theorem X6_encode_kv_cuts_fields (native : byteorder) (timestamp : Z)
    (key value : str) (kb vb : bytes) (n : Z) (data : bytes) :
  str_encode key = Ok kb -> str_encode value = Ok vb ->
  encode_kv native timestamp key value = Ok (n, data) ->
  exists hd,
    encode_header native timestamp (len key) (len value) = Ok hd
    /\ data = hd ++ take (length key) kb ++ take (length value) vb
    /\ (length key <= length kb)%nat /\ (length value <= length vb)%nat.
Proof.
  intros Ek Ev E.
  pose proof (encode_kv_cases native timestamp key value) as H.
  rewrite E in H. destruct H as (_ & _ & Ht & Hk & Hv).
  destruct (encode_kv_ok native timestamp key value kb vb Ek Ev Ht
              (proj2 Hk) (proj2 Hv)) as (hd & Eh & _ & _ & E').
  rewrite E in E'. injection E' as _ ->.
  exists hd. repeat split; try assumption; now apply str_encode_length.
Qed.

Lemma X6_encode_kv_cuts_fields_witness :
  exists hd,
    encode_header LittleEndian 0 (len e_acute_a) (len (text "v")) = Ok hd
    /\ cut_record = hd ++ take 2 [xc3; xa9; x61] ++ take 1 [x76]
    /\ (2 <= 3)%nat /\ (1 <= 1)%nat.
Proof.
  apply (X6_encode_kv_cuts_fields LittleEndian 0 e_acute_a (text "v")
           [xc3; xa9; x61] [x76] 15 cut_record); reflexivity.
Defined.

(** X7: on ASCII text the codec round-trips. For an ASCII key and value
    and a timestamp and sizes that fit the header, [encode_kv] returns and
    [decode_kv] gives the same triple back from the bytes. *)
Theorem X7_codec_roundtrip_ascii (native : byteorder) (timestamp : Z)
    (key value : str) :
  is_ascii key -> is_ascii value ->
  u32 timestamp -> len key < 4294967296 -> len value < 4294967296 ->
  exists n data,
    encode_kv native timestamp key value = Ok (n, data)
    /\ decode_kv native data = Ok (timestamp, key, value).
Proof. intros. now apply codec_roundtrip_ascii. Qed.

Lemma X7_codec_roundtrip_ascii_witness :
  exists n data,
    encode_kv BigEndian 1700000000 (text "othello") (text "shakespeare")
    = Ok (n, data)
    /\ decode_kv BigEndian data
       = Ok (1700000000, text "othello", text "shakespeare").
Proof.
  apply (X7_codec_roundtrip_ascii BigEndian 1700000000
           (text "othello") (text "shakespeare")).
  - ascii_text.
  - ascii_text.
  - unfold u32. lia.
  - reflexivity.
  - reflexivity.
Defined.

(** X8: [decode_kv] accepts only a buffer that is exactly one record. When
    it returns, the buffer is 12 bytes of header followed by exactly the
    key_size + value_size bytes the header declares, and key and value are
    the decoded fields. A buffer shorter than 12 bytes, or one whose
    length differs from what its header declares (shorter or longer),
    raises struct.error; the only other exception is UnicodeDecodeError. *)
Theorem X8_decode_kv_exact_buffer (native : byteorder) (data : bytes) :
  match decode_kv native data with
  | Ok (timestamp, key, value) =>
      exists key_size value_size,
        decode_header native (slice_to HEADER_SIZE data)
        = Ok (timestamp, key_size, value_size)
        /\ len data = HEADER_SIZE + key_size + value_size
        /\ bytes_decode (slice_to key_size (slice_from HEADER_SIZE data))
           = Ok key
        /\ bytes_decode
             (slice_to value_size (slice_from (HEADER_SIZE + key_size) data))
           = Ok value
  | Raise e => e = StructError \/ e = UnicodeDecodeError
  end
  /\ (len data < HEADER_SIZE -> decode_kv native data = Raise StructError)
  /\ (forall timestamp key_size value_size,
        decode_header native (slice_to HEADER_SIZE data)
        = Ok (timestamp, key_size, value_size) ->
        len data <> HEADER_SIZE + key_size + value_size ->
        decode_kv native data = Raise StructError).
Proof.
  split; [|split].
  - destruct (decode_kv native data) as [[[t k] v]|e] eqn:E.
    + now apply decode_kv_inv.
    + now apply decode_kv_raise in E.
  - apply decode_kv_short.
  - intros timestamp key_size value_size Eh Hne.
    exact (decode_kv_wrong_length native data _ _ _ Eh Hne).
Qed.

Lemma X8_decode_kv_exact_buffer_witness :
  decode_kv LittleEndian (take 11 cut_record) = Raise StructError
  /\ decode_kv LittleEndian (cut_record ++ [x00]) = Raise StructError.
Proof.
  split.
  - apply (X8_decode_kv_exact_buffer LittleEndian (take 11 cut_record)).
    reflexivity.
  - apply (proj2 (proj2 (X8_decode_kv_exact_buffer LittleEndian
                           (cut_record ++ [x00]))) 0 2 1).
    + reflexivity.
    + vm_compute. discriminate.
Defined.

(** X9: the scan of [__init_db] terminates. The constructor returns or
    raises on every file: each round of the loop moves the pointer by at
    least the 12 bytes of a header, so the loop ends within as many rounds
    as the file has bytes, and allowing it more rounds changes nothing. *)
Theorem X9_scan_terminates (native : byteorder) :
  (forall on_disk : option bytes, exists r, __init__ native on_disk = Some r)
  /\ (forall (data : bytes) (fuel : nat),
        len data <= Z.of_nat fuel ->
        init_db_loop native fuel (len data) 0 (mk (mk_file data 0 false) ∅)
        = init_db_loop native (Z.to_nat (len data)) (len data) 0
            (mk (mk_file data 0 false) ∅)
        /\ init_db_loop native fuel (len data) 0 (mk (mk_file data 0 false) ∅)
           <> None).
Proof.
  split; [apply init_terminates|].
  intros data fuel Hfuel.
  rewrite (init_db_loop_more_fuel native fuel (Z.to_nat (len data))) by lia.
  split; [reflexivity|].
  destruct (init_db_loop_fuel native (Z.to_nat (len data)) (len data) 0 data ∅)
    as (r & s & -> & _); [lia | lia | discriminate].
Qed.

Lemma X9_scan_terminates_witness :
  init_db_loop LittleEndian 1000 (len two_records) 0
    (mk (mk_file two_records 0 false) ∅)
  = init_db_loop LittleEndian (Z.to_nat (len two_records)) (len two_records) 0
      (mk (mk_file two_records 0 false) ∅).
Proof.
  apply (proj2 (X9_scan_terminates LittleEndian) two_records 1000%nat).
  vm_compute. discriminate.
Defined.

(** X10: which files open. A file of 10 bytes or more opens exactly when
    it is a well-formed log: one record that [decode_kv] accepts after the
    other, up to the last byte. Whenever the constructor returns a store,
    the store is open over the file as it was, and its file object stands
    at the end of the file. *)
Theorem X10_open_iff_well_formed (native : byteorder) (on_disk : option bytes) :
  (forall data, on_disk = Some data -> 10 <= len data ->
     ((exists self, __init__ native on_disk = Some (Ok self))
      <-> well_formed_log native data))
  /\ (forall self, __init__ native on_disk = Some (Ok self) ->
        f_data (file_store self) = default [] on_disk
        /\ f_pos (file_store self) = len (default [] on_disk)
        /\ f_closed (file_store self) = false).
Proof.
  split.
  - intros data -> Hlen. now apply init_ok_iff.
  - apply init_ok_file.
Qed.

Lemma X10_open_iff_well_formed_witness :
  well_formed_log LittleEndian two_records
  /\ f_data (file_store opened_two_records) = two_records.
Proof.
  destruct (X10_open_iff_well_formed LittleEndian (Some two_records))
    as (Hiff & Hfile).
  split.
  - apply (Hiff two_records eq_refl); [vm_compute; discriminate|].
    exists opened_two_records. vm_compute. reflexivity.
  - apply (Hfile opened_two_records). vm_compute. reflexivity.
Defined.

(** X11: a file of 10 or 11 bytes does not open. The length check of
    [__init_db] lets it through to the scan, whose first read returns
    fewer than 12 bytes, and [decode_header] raises struct.error. *)
Theorem X11_ten_or_eleven_bytes_raise (native : byteorder) (data : bytes) :
  10 <= len data < 12 ->
  __init__ native (Some data) = Some (Raise StructError).
Proof. apply init_ten_or_eleven. Qed.

Lemma X11_ten_or_eleven_bytes_raise_witness :
  __init__ BigEndian (Some (replicate 11 xff)) = Some (Raise StructError).
Proof.
  apply (X11_ten_or_eleven_bytes_raise BigEndian (replicate 11 xff)).
  vm_compute. split; [discriminate | reflexivity].
Defined.

(** X12: the index the constructor builds. After the constructor returns
    a store, every key of the index is mapped to the offset of a record in
    the file that [decode_kv] accepts and that carries this key, and [get]
    of the key returns the value of that record. *)
Theorem X12_index_after_open (native : byteorder) (on_disk : option bytes)
    (self : DiskStorage.t) (key : str) (off : Z) :
  __init__ native on_disk = Some (Ok self) ->
  key_dir self !! key = Some off ->
  0 <= off
  /\ exists t v sz,
       off + sz <= len (f_data (file_store self))
       /\ decode_kv native
            (slice_to sz (slice_from off (f_data (file_store self))))
          = Ok (t, key, v)
       /\ (get native key self).1 = Ok v.
Proof.
  intros Hi Hk. destruct (index_ok_init native on_disk self Hi) as (Hok & Hopen).
  destruct (get_of_index native key self off Hok Hopen Hk)
    as (t & v & sz & Hp & Hg).
  destruct (Hok key off Hk) as (Hoff & _). split; [exact Hoff|].
  exists t, v, sz. pose proof (parse_record_inv _ _ _ _ _ _ Hp) as Hsz.
  apply parse_record_decode in Hp as (_ & Hd).
  rewrite len_slice_from in Hsz by assumption.
  repeat split; [lia | exact Hd | exact Hg].
Qed.

Lemma X12_index_after_open_witness :
  0 <= 30
  /\ exists t v sz,
       30 + sz <= len (f_data (file_store opened_two_records))
       /\ decode_kv LittleEndian
            (slice_to sz (slice_from 30 (f_data (file_store opened_two_records))))
          = Ok (t, text "hamlet", v)
       /\ (get LittleEndian (text "hamlet") opened_two_records).1 = Ok v.
Proof.
  apply (X12_index_after_open LittleEndian (Some two_records)
           opened_two_records (text "hamlet") 30).
  - vm_compute. reflexivity.
  - vm_compute. reflexivity.
Defined.

(** X13: [get] never reads a torn record. On a store the constructor
    returned, after any run of [set] and [get] calls on any text, [get] of
    any key returns a string or raises UnicodeDecodeError; it never raises
    struct.error, ValueError or OSError. *)
Theorem X13_get_never_torn (native : byteorder) (on_disk : option bytes)
    (self : DiskStorage.t) (ops : list op) (key : str) :
  __init__ native on_disk = Some (Ok self) ->
  (exists v, (get native key (run_ops native ops self)).1 = Ok v)
  \/ (get native key (run_ops native ops self)).1 = Raise UnicodeDecodeError.
Proof.
  intros Hi. destruct (index_ok_init native on_disk self Hi) as (Hok & Hopen).
  destruct (run_ops_framed native ops self (index_ok_framed native self Hok))
    as (Hf & Hc).
  apply get_framed; [exact Hf | congruence].
Qed.

Lemma X13_get_never_torn_witness :
  (exists v,
     (get LittleEndian e_acute
        (run_ops LittleEndian
           [OpSet 1700000000 e_acute (text "v"); OpGet (text "othello")]
           fresh)).1 = Ok v)
  \/ (get LittleEndian e_acute
        (run_ops LittleEndian
           [OpSet 1700000000 e_acute (text "v"); OpGet (text "othello")]
           fresh)).1 = Raise UnicodeDecodeError.
Proof.
  apply (X13_get_never_torn LittleEndian None fresh).
  reflexivity.
Defined.

(** X14: a [set] that cannot encode its record changes nothing. On an
    open store, when [encode_kv] raises (text that cannot be encoded, or a
    clock reading or size out of range), [set] raises the same exception
    and leaves the index and the contents of the file as they were; the
    file object is left at the end of the file. *)
Theorem X14_failed_set_changes_nothing (native : byteorder) (now : Z)
    (key value : str) (self : DiskStorage.t) (e : exn) :
  f_closed (file_store self) = false ->
  encode_kv native now key value = Raise e ->
  let self' := (set native now key value self).2 in
  (set native now key value self).1 = Raise e
  /\ (e = UnicodeEncodeError \/ e = StructError)
  /\ key_dir self' = key_dir self
  /\ f_data (file_store self') = f_data (file_store self)
  /\ f_pos (file_store self') = len (f_data (file_store self))
  /\ f_closed (file_store self') = false.
Proof.
  destruct self as [[data pos closed] kd]. simpl. intros -> E.
  rewrite (set_not_encoded _ _ _ _ _ _ _ _ E). simpl.
  repeat split.
  pose proof (encode_kv_cases native now key value) as H. rewrite E in H.
  destruct H as [(-> & _)|(-> & _)]; auto.
Qed.

Lemma X14_failed_set_changes_nothing_witness :
  (set LittleEndian 1700000000 surrogate_key (text "v") opened_two_records).1
  = Raise UnicodeEncodeError
  /\ (set LittleEndian 4294967296 (text "k") (text "v") opened_two_records).1
     = Raise StructError.
Proof.
  split.
  - apply (X14_failed_set_changes_nothing LittleEndian 1700000000
             surrogate_key (text "v") opened_two_records UnicodeEncodeError);
      reflexivity.
  - apply (X14_failed_set_changes_nothing LittleEndian 4294967296
             (text "k") (text "v") opened_two_records StructError);
      reflexivity.
Defined.

(** X15: the log is append-only and keys are never dropped. After any run
    of [set] and [get] calls, on any store and any text, whether the calls
    return or raise, the file is the old file followed by new bytes, every
    key that was in the index is still in it, and the file is open or
    closed as before. *)
Theorem X15_append_only (native : byteorder) (ops : list op) (self : DiskStorage.t) :
  (exists tail,
     f_data (file_store (run_ops native ops self))
     = f_data (file_store self) ++ tail)
  /\ (forall k, is_Some (key_dir self !! k) ->
        is_Some (key_dir (run_ops native ops self) !! k))
  /\ f_closed (file_store (run_ops native ops self))
     = f_closed (file_store self).
Proof. apply run_ops_grows. Qed.

Lemma X15_append_only_witness :
  is_Some (key_dir (run_ops LittleEndian
                      [OpSet 1700000002 (text "othello") (text "verdi");
                       OpGet (text "hamlet")]
                      opened_two_records) !! text "hamlet").
Proof.
  apply (X15_append_only LittleEndian
           [OpSet 1700000002 (text "othello") (text "verdi");
            OpGet (text "hamlet")] opened_two_records).
  exists 30. vm_compute. reflexivity.
Defined.

(** X16: a [get] leaves no trace in later calls. After [get] of any key,
    [get] of any key answers as it would have without it, and [set] has
    the same outcome, index and file contents as it would have had: the
    position [get] leaves the file object at is never read. *)
Theorem X16_get_leaves_no_trace (native : byteorder) (key1 key2 : str)
    (now : Z) (key value : str) (self : DiskStorage.t) :
  let self1 := (get native key1 self).2 in
  (get native key2 self1).1 = (get native key2 self).1
  /\ (set native now key value self1).1 = (set native now key value self).1
  /\ key_dir (set native now key value self1).2
     = key_dir (set native now key value self).2
  /\ f_data (file_store (set native now key value self1).2)
     = f_data (file_store (set native now key value self).2).
Proof.
  destruct (get_frame native key1 self) as (Hk & Hd & Hc).
  destruct (get native key1 self) as [r [[d1 p1 c1] k1]].
  destruct self as [[d p c] k]. simpl in *. subst.
  split; [apply get_any_position|].
  destruct (set_any_position native now key value d p1 p c k) as (H1 & H2).
  split; [exact H1|]. destruct c.
  - rewrite !set_closed by reflexivity. auto.
  - rewrite (H2 eq_refl). auto.
Qed.

(** X17: [set] touches one key. On a store the constructor returned,
    after any run of [set] and [get] calls, a further [set] of a key,
    whether it returns or raises, leaves the answer of [get] for every
    other key as it was. *)
Theorem X17_set_touches_one_key (native : byteorder) (on_disk : option bytes)
    (self : DiskStorage.t) (ops : list op) (now : Z) (key value key' : str) :
  __init__ native on_disk = Some (Ok self) ->
  key' <> key ->
  let s := run_ops native ops self in
  (get native key' (set native now key value s).2).1 = (get native key' s).1.
Proof.
  intros Hi Hne. destruct (index_ok_init native on_disk self Hi) as (Hok & _).
  destruct (run_ops_framed native ops self (index_ok_framed native self Hok))
    as (Hf & _).
  now apply get_other_key.
Qed.

Lemma X17_set_touches_one_key_witness :
  (get LittleEndian (text "hamlet")
     (set LittleEndian 1700000002 e_acute (text "verdi")
        (run_ops LittleEndian [OpGet (text "othello")] opened_two_records)).2).1
  = (get LittleEndian (text "hamlet")
       (run_ops LittleEndian [OpGet (text "othello")] opened_two_records)).1.
Proof.
  apply (X17_set_touches_one_key LittleEndian (Some two_records)
           opened_two_records [OpGet (text "othello")] 1700000002
           e_acute (text "verdi") (text "hamlet")).
  - vm_compute. reflexivity.
  - discriminate.
Defined.

(** X18: on ASCII text the store is a map. On a store the constructor
    returned, after any sequence of [set] calls on ASCII keys and values
    (at clock readings and sizes that fit the header), [get] of a key
    returns the value of the last call that set it, and answers as before
    the calls for a key none of them set. *)
Theorem X18_store_is_a_map_on_ascii (native : byteorder) (on_disk : option bytes)
    (self : DiskStorage.t) (calls : list (Z * str * str)) (key : str) :
  __init__ native on_disk = Some (Ok self) ->
  Forall ascii_call calls ->
  (get native key (run_sets native calls self)).1
  = match last_set calls key with
    | Some v => Ok v
    | None => (get native key self).1
    end.
Proof.
  intros Hi Hcalls. destruct (index_ok_init native on_disk self Hi) as (Hok & Hopen).
  apply run_sets_answers;
    [exact Hcalls | now apply index_ok_framed | exact Hopen].
Qed.

Lemma three_calls_ascii : Forall ascii_call three_calls.
Proof.
  repeat (constructor;
          [repeat split; try ascii_text; try reflexivity; discriminate|]).
  constructor.
Qed.

Lemma X18_store_is_a_map_on_ascii_witness :
  (get LittleEndian (text "othello")
     (run_sets LittleEndian three_calls fresh)).1 = Ok (text "verdi")
  /\ (get LittleEndian (text "macbeth")
        (run_sets LittleEndian three_calls fresh)).1 = Ok [].
Proof.
  split.
  - apply (X18_store_is_a_map_on_ascii LittleEndian None fresh three_calls
             (text "othello")); [reflexivity | exact three_calls_ascii].
  - apply (X18_store_is_a_map_on_ascii LittleEndian None fresh three_calls
             (text "macbeth")); [reflexivity | exact three_calls_ascii].
Defined.

(** X19: on ASCII text the map survives a reopen. After any sequence of
    [set] calls on ASCII keys and values on a fresh file, [close] and the
    constructor on the same file give a store with the same index over the
    same bytes, in which [get] of a key returns the value of the last call
    that set it, and the empty string for a key none of them set. *)
Theorem X19_reopen_keeps_the_map_on_ascii (native : byteorder)
    (calls : list (Z * str * str)) :
  Forall ascii_call calls ->
  let s1 := run_sets native calls fresh in
  exists s2,
    reopen native (close s1).2 = Some (Ok s2)
    /\ key_dir s2 = key_dir s1
    /\ f_data (file_store s2) = f_data (file_store s1)
    /\ forall key,
         (get native key s2).1
         = match last_set calls key with
           | Some v => Ok v
           | None => Ok []
           end.
Proof.
  intros Hcalls s1.
  destruct (reopen_ascii native calls Hcalls) as (s2 & Hr & Hk & Hd & Hg).
  exists s2. repeat split; try assumption.
  intros key. rewrite Hg. subst s1.
  rewrite (run_sets_answers native calls Hcalls fresh key
             (index_ok_framed native fresh (index_ok_fresh native)) eq_refl).
  reflexivity.
Qed.

Lemma X19_reopen_keeps_the_map_on_ascii_witness :
  exists s2,
    reopen LittleEndian (close (run_sets LittleEndian three_calls fresh)).2
    = Some (Ok s2)
    /\ key_dir s2 = key_dir (run_sets LittleEndian three_calls fresh)
    /\ f_data (file_store s2)
       = f_data (file_store (run_sets LittleEndian three_calls fresh))
    /\ forall key,
         (get LittleEndian key s2).1
         = match last_set three_calls key with
           | Some v => Ok v
           | None => Ok []
           end.
Proof.
  apply (X19_reopen_keeps_the_map_on_ascii LittleEndian three_calls).
  exact three_calls_ascii.
Defined.
